(** * ArcadeManager: a credit ledger over an ERC20 asset

    Shallow embedding of [contracts/ArcadeManager.sol] (Solidity ^0.8.0).
    The contract keeps a per-account credit balance, converts deposited
    BULL tokens to credits at a fixed rate and converts credits back on
    withdrawal.  Unsigned 256-bit integers are integers of [Z] with the
    checked arithmetic of Solidity 0.8 written out (an overflow or an
    underflow is a [Panic], never a wrap-around); storage mappings are
    finite maps read with a zero default; a transaction either commits the
    state its body reached or reverts to the state it started from.  The
    token is any contract: while [deposit] or [withdraw] waits for it, it
    may call back into the ledger. *)

From stdpp Require Import base option gmap strings.
From Stdlib Require Import ZArith Lia.
Local Open Scope Z_scope.

(** ** Values *)

Abbreviation address := N (only parsing).

Definition MAX_UINT256 : Z := 2 ^ 256 - 1.

Definition is_uint256 (x : Z) : Prop := 0 ≤ x ≤ MAX_UINT256.

(** [CREDIT_RATE]: 1 $BULL = 100 credits; a compile-time constant of the
    contract, not a storage slot. *)
Definition CREDIT_RATE : Z := 100.

(** ** Failures and results *)

Inductive Failure :=
| Error (reason : string)   (* a failed [require], with its message *)
| Panic (code : Z).         (* 0x11: arithmetic overflow or underflow *)

Inductive Result (A : Type) :=
| Ok (a : A)
| Revert (f : Failure).
Arguments Ok {A} a.
Arguments Revert {A} f.

(** The messages of the contract's [require]s, under the names the
    specification gives to the failures. *)
Definition InvalidAmount : string := "Amount must be greater than zero".
Definition TransferFailed : string := "Token transfer failed".
Definition InsufficientCredits : string := "Insufficient credits".
Definition InvalidAddress : string := "Invalid player address".
Definition TooSmall : string := "Resulting token amount too small".
Definition InsufficientReserve : string := "Insufficient contract balance".
Definition AccessDenied : string := "Ownable: caller is not the owner".
Definition ReentrancyDetected : string := "ReentrancyGuard: reentrant call".
Definition ARITHMETIC_OVERFLOW : Z := 17.

(** ** Storage, events, interactions *)

Record Storage := mkStorage {
  bullToken : address;             (* IERC20 public bullToken *)
  userCredits : gmap address Z;    (* mapping(address => uint256) *)
  _owner : address;                (* Ownable *)
  _status : Z                      (* ReentrancyGuard *)
}.

Definition _NOT_ENTERED : Z := 1.
Definition _ENTERED : Z := 2.

(** [getCredits]: a mapping reads zero where nothing was ever written. *)
Definition getCredits (s : Storage) (user : address) : Z :=
  default 0 (userCredits s !! user).

Definition set_userCredits (user : address) (v : Z) (s : Storage) : Storage :=
  mkStorage (bullToken s) (<[user := v]> (userCredits s)) (_owner s) (_status s).

Definition set_status (v : Z) (s : Storage) : Storage :=
  mkStorage (bullToken s) (userCredits s) (_owner s) v.

Definition set_owner (o : address) (s : Storage) : Storage :=
  mkStorage (bullToken s) (userCredits s) o (_status s).

Inductive Event :=
| Deposit (user : address) (bullAmount creditAmount : Z)
| CreditsSpent (user : address) (amount : Z)
| WinningsAwarded (user : address) (amount : Z)
| Withdrawal (user : address) (creditAmount bullAmount : Z)
| OwnershipTransferred (previousOwner newOwner : address).

(** An external call made by the ledger, with the ledger storage as it
    stood when the call was made: what a callee that calls back into the
    ledger's getters would read. *)
Inductive Interaction :=
| CallTransferFrom (from to : address) (amount : Z) (seen : Storage)
| CallBalanceOf (account : address) (seen : Storage)
| CallTransfer (to : address) (amount : Z) (seen : Storage).

(** The functions of the ledger that change state, as calls. *)
Inductive Call :=
| CDeposit (bullAmount : Z)
| CSpendCredits (amount : Z)
| CAwardWinnings (player : address) (amount : Z)
| CWithdraw (creditAmount : Z)
| CTransferOwnership (newOwner : address).

(** ** The asset-transfer capability

    [IERC20] as the ledger consumes it.  A state-changing method gets the
    calling ledger's storage (readable through the public getters while
    the call runs) and [msg.sender]; it returns a boolean and the token's
    next state, or reverts.  While it runs it may call into the ledger:
    [during_transfer] and [during_transferFrom] give those calls in
    order, each with the address that makes it (the token's own or that
    of a contract the token calls).  [balanceOf] is a view function: the
    ledger calls it read-only and it cannot write. *)
Class IERC20 (T : Type) := {
  balanceOf : T → address → Z;
  transfer : Storage → address → T → address → Z → Result (bool * T);
  transferFrom :
    Storage → address → T → address → address → Z → Result (bool * T);
  during_transfer :
    Storage → address → T → address → Z → list (address * Call);
  during_transferFrom :
    Storage → address → T → address → address → Z → list (address * Call)
}.

(** A token that moves what it says it moved: a call that returns [true]
    took [amount] from the source and gave it to the destination. *)
Definition moved {T} `{IERC20 T} (t t' : T) (src dst : address) (amount : Z) : Prop :=
  ∀ a, balanceOf t' a =
       balanceOf t a - (if decide (a = src) then amount else 0)
                     + (if decide (a = dst) then amount else 0).

Class ERC20Laws (T : Type) `{IERC20 T} := {
  transfer_moves : ∀ seen sender t to amount t',
    transfer seen sender t to amount = Ok (true, t') →
    moved t t' sender to amount;
  transferFrom_moves : ∀ seen sender t from to amount t',
    transferFrom seen sender t from to amount = Ok (true, t') →
    moved t t' from to amount
}.

(** ** The world and the transaction monad *)

Record World (T : Type) := mkWorld {
  storage : Storage;
  token : T;
  logs : list Event;
  calls : list Interaction
}.
Arguments mkWorld {T} _ _ _ _.
Arguments storage {T} _.
Arguments token {T} _.
Arguments logs {T} _.
Arguments calls {T} _.

(** A computation runs from a world to a result and the world it had
    reached when it returned or failed. *)
Definition M (T A : Type) : Type := World T → Result A * World T.

Global Instance M_ret {T} : MRet (M T) := λ A a w, (Ok a, w).

Global Instance M_bind {T} : MBind (M T) := λ A B k m w,
  match m w with
  | (Ok a, w') => k a w'
  | (Revert f, w') => (Revert f, w')
  end.

Section Ledger.

Context {T : Type} `{IERC20 T}.

(** [address(this)]: the address the ledger is deployed at. *)
Variable this : address.

Definition revert {A} (reason : string) : M T A :=
  λ w, (Revert (Error reason), w).

Definition panic {A} (code : Z) : M T A :=
  λ w, (Revert (Panic code), w).

Definition require (cond : bool) (reason : string) : M T unit :=
  if cond then mret tt else revert reason.

Definition sload {A} (field : Storage → A) : M T A :=
  λ w, (Ok (field (storage w)), w).

Definition sstore (upd : Storage → Storage) : M T unit :=
  λ w, (Ok tt, mkWorld (upd (storage w)) (token w) (logs w) (calls w)).

Definition emit (e : Event) : M T unit :=
  λ w, (Ok tt, mkWorld (storage w) (token w) (logs w ++ [e]) (calls w)).

(** Checked arithmetic on [uint256]. *)
Definition checked_add (a b : Z) : M T Z :=
  if bool_decide (a + b ≤ MAX_UINT256) then mret (a + b) else panic ARITHMETIC_OVERFLOW.

Definition checked_sub (a b : Z) : M T Z :=
  if bool_decide (b ≤ a) then mret (a - b) else panic ARITHMETIC_OVERFLOW.

Definition checked_mul (a b : Z) : M T Z :=
  if bool_decide (a * b ≤ MAX_UINT256) then mret (a * b) else panic ARITHMETIC_OVERFLOW.

(** Modelled from the spec: the modifier [nonReentrant] comes from
    OpenZeppelin's ReentrancyGuard, which the contract imports and which is
    not part of the sources.  Section 4.2: on entry fail if the guard is
    locked, else lock; run the body; unlock on exit.  A modifier named in
    a function's header wraps the whole body, its [require]s included. *)
Definition nonReentrant {A} (body : M T A) : M T A :=
  st ← sload _status;
  require (bool_decide (st ≠ _ENTERED)) ReentrancyDetected;;
  sstore (set_status _ENTERED);;
  r ← body;
  sstore (set_status _NOT_ENTERED);;
  mret r.

(** Modelled from the spec: the modifier [onlyOwner] comes from
    OpenZeppelin's Ownable, imported and not part of the sources.
    Section 4.1 [requireOwner]: fail unless the caller is the owner. *)
Definition onlyOwner {A} (sender : address) (body : M T A) : M T A :=
  o ← sload _owner;
  require (bool_decide (o = sender)) AccessDenied;;
  body.

(** ** The functions that call nobody *)

Definition awardWinnings (sender player : address) (amount : Z) : M T unit :=
  onlyOwner sender (
    require (bool_decide (player ≠ 0%N)) InvalidAddress;;
    require (bool_decide (0 < amount)) InvalidAmount;;
    old ← sload (λ s, getCredits s player);
    new ← checked_add old amount;
    sstore (set_userCredits player new);;
    emit (WinningsAwarded player amount)).

(** Modelled from the spec: [transferOwnership] is inherited from
    OpenZeppelin's Ownable, not part of the sources.  Section 4.1: the
    caller must be the owner and the new owner must not be null. *)
Definition transferOwnership (sender newOwner : address) : M T unit :=
  onlyOwner sender (
    require (bool_decide (newOwner ≠ 0%N)) "Ownable: new owner is the zero address";;
    old ← sload _owner;
    sstore (set_owner newOwner);;
    emit (OwnershipTransferred old newOwner)).

(** ** Transactions

    A call from outside runs as a transaction: when the body fails, every
    effect it had is undone and only the failure is reported. *)
Definition transact {A} (m : M T A) (w : World T) : Result A * World T :=
  match m w with
  | (Ok a, w') => (Ok a, w')
  | (Revert f, _) => (Revert f, w)
  end.

(** ** External calls

    A call into the ledger made by the callee while the ledger waits for
    it.  The ledger calls out only from inside [nonReentrant] bodies, so
    the guard is locked when such a call arrives: a guarded function
    fails at its modifier, and the other two run as ever (lemma
    [reentrant_call_is_dispatch]: on a locked storage this is
    [dispatch]). *)
Definition reentrant_call (sender : address) (c : Call) : M T unit :=
  match c with
  | CDeposit _ | CSpendCredits _ | CWithdraw _ => revert ReentrancyDetected
  | CAwardWinnings player amount => awardWinnings sender player amount
  | CTransferOwnership newOwner => transferOwnership sender newOwner
  end.

(** The callee's calls, one after the other; one that fails is undone
    and the callee goes on. *)
Fixpoint reenter (cs : list (address * Call)) (w : World T) : World T :=
  match cs with
  | [] => w
  | (sender, c) :: cs' => reenter cs' (snd (transact (reentrant_call sender c) w))
  end.

(** The record of an external call, with the storage it is made on. *)
Definition interact (i : Storage → Interaction) (w : World T) : World T :=
  mkWorld (storage w) (token w) (logs w) (calls w ++ [i (storage w)]).

(** [bullToken.transferFrom(from, to, amount)] and
    [bullToken.transfer(to, amount)].  The callee runs on the storage as
    it stands at the call.  When it returns, the ledger goes on from the
    token's next state and from whatever the callee's calls into the
    ledger left in storage and in the log.  A callee that reverts makes
    the caller revert with the same failure, and what the callee did is
    undone with it. *)
Definition call_transferFrom (from to : address) (amount : Z) : M T bool :=
  λ w, let w1 := interact (CallTransferFrom from to amount) w in
       match transferFrom (storage w) this (token w) from to amount with
       | Ok (b, t') =>
           (Ok b, reenter (during_transferFrom (storage w) this (token w) from to amount)
                    (mkWorld (storage w1) t' (logs w1) (calls w1)))
       | Revert f => (Revert f, w1)
       end.

Definition call_transfer (to : address) (amount : Z) : M T bool :=
  λ w, let w1 := interact (CallTransfer to amount) w in
       match transfer (storage w) this (token w) to amount with
       | Ok (b, t') =>
           (Ok b, reenter (during_transfer (storage w) this (token w) to amount)
                    (mkWorld (storage w1) t' (logs w1) (calls w1)))
       | Revert f => (Revert f, w1)
       end.

(** [bullToken.balanceOf(account)], a read-only call: the callee cannot
    write to the ledger while it runs. *)
Definition call_balanceOf (account : address) : M T Z :=
  λ w, (Ok (balanceOf (token w) account), interact (CallBalanceOf account) w).

(** ** The functions that call the token *)

Definition deposit (sender : address) (bullAmount : Z) : M T unit :=
  nonReentrant (
    require (bool_decide (0 < bullAmount)) InvalidAmount;;
    ok ← call_transferFrom sender this bullAmount;
    require ok TransferFailed;;
    creditAmount ← checked_mul bullAmount CREDIT_RATE;
    old ← sload (λ s, getCredits s sender);
    new ← checked_add old creditAmount;
    sstore (set_userCredits sender new);;
    emit (Deposit sender bullAmount creditAmount)).

Definition spendCredits (sender : address) (amount : Z) : M T unit :=
  nonReentrant (
    require (bool_decide (0 < amount)) InvalidAmount;;
    have ← sload (λ s, getCredits s sender);
    require (bool_decide (amount ≤ have)) InsufficientCredits;;
    old ← sload (λ s, getCredits s sender);
    new ← checked_sub old amount;
    sstore (set_userCredits sender new);;
    emit (CreditsSpent sender amount)).

Definition withdraw (sender : address) (creditAmount : Z) : M T unit :=
  nonReentrant (
    require (bool_decide (0 < creditAmount)) InvalidAmount;;
    have ← sload (λ s, getCredits s sender);
    require (bool_decide (creditAmount ≤ have)) InsufficientCredits;;
    let bullAmount := creditAmount / CREDIT_RATE in
    require (bool_decide (0 < bullAmount)) TooSmall;;
    reserve ← call_balanceOf this;
    require (bool_decide (bullAmount ≤ reserve)) InsufficientReserve;;
    old ← sload (λ s, getCredits s sender);
    new ← checked_sub old creditAmount;
    sstore (set_userCredits sender new);;
    ok ← call_transfer sender bullAmount;
    require ok TransferFailed;;
    emit (Withdrawal sender creditAmount bullAmount)).

Definition dispatch (sender : address) (c : Call) : M T unit :=
  match c with
  | CDeposit bullAmount => deposit sender bullAmount
  | CSpendCredits amount => spendCredits sender amount
  | CAwardWinnings player amount => awardWinnings sender player amount
  | CWithdraw creditAmount => withdraw sender creditAmount
  | CTransferOwnership newOwner => transferOwnership sender newOwner
  end.

Definition execute (sender : address) (c : Call) (w : World T) : Result unit * World T :=
  transact (dispatch sender c) w.

(** A history of calls from outside, each by its own sender, one
    transaction after the other. *)
Fixpoint execute_all (cs : list (address * Call)) (w : World T) : World T :=
  match cs with
  | [] => w
  | (sender, c) :: cs' => execute_all cs' (snd (execute sender c w))
  end.

End Ledger.

(** ** Tokens

    Modelled from the spec: [MockBullToken] only calls the constructor of
    OpenZeppelin's ERC20, which is imported and not part of the sources;
    section 6 names its surface ([transferFrom], [transfer], [balanceOf]).
    The standard ERC20 behaviour is written out: a transfer needs the
    balance, a transfer on behalf of an owner needs the allowance, and a
    call that cannot be honoured reverts. *)
Record ERC20 := mkERC20 {
  _balances : gmap address Z;
  _allowances : gmap (address * address) Z;
  _totalSupply : Z
}.

Definition erc20_balanceOf (t : ERC20) (account : address) : Z :=
  default 0 (_balances t !! account).

Definition allowance (t : ERC20) (owner spender : address) : Z :=
  default 0 (_allowances t !! (owner, spender)).

Definition set_balance (account : address) (v : Z) (t : ERC20) : ERC20 :=
  mkERC20 (<[account := v]> (_balances t)) (_allowances t) (_totalSupply t).

Definition _approve (owner spender : address) (amount : Z) (t : ERC20) : ERC20 :=
  mkERC20 (_balances t) (<[(owner, spender) := amount]> (_allowances t)) (_totalSupply t).

Definition _transfer (from to : address) (amount : Z) (t : ERC20) : Result ERC20 :=
  if bool_decide (from = 0%N) then Revert (Error "ERC20: transfer from the zero address")
  else if bool_decide (to = 0%N) then Revert (Error "ERC20: transfer to the zero address")
  else
    let fromBalance := erc20_balanceOf t from in
    if bool_decide (fromBalance < amount) then Revert (Error "ERC20: transfer amount exceeds balance")
    else
      let t1 := set_balance from (fromBalance - amount) t in
      Ok (set_balance to (erc20_balanceOf t1 to + amount) t1).

Definition _spendAllowance (owner spender : address) (amount : Z) (t : ERC20) : Result ERC20 :=
  let currentAllowance := allowance t owner spender in
  if bool_decide (currentAllowance = MAX_UINT256) then Ok t
  else if bool_decide (currentAllowance < amount) then Revert (Error "ERC20: insufficient allowance")
  else Ok (_approve owner spender (currentAllowance - amount) t).

Definition erc20_transfer (sender : address) (t : ERC20) (to : address) (amount : Z)
  : Result (bool * ERC20) :=
  match _transfer sender to amount t with
  | Ok t' => Ok (true, t')
  | Revert f => Revert f
  end.

Definition erc20_transferFrom (sender : address) (t : ERC20) (from to : address) (amount : Z)
  : Result (bool * ERC20) :=
  match _spendAllowance from sender amount t with
  | Ok t1 =>
      match _transfer from to amount t1 with
      | Ok t' => Ok (true, t')
      | Revert f => Revert f
      end
  | Revert f => Revert f
  end.

Global Instance ERC20_IERC20 : IERC20 ERC20 := {|
  balanceOf := erc20_balanceOf;
  transfer := λ _ sender t to amount, erc20_transfer sender t to amount;
  transferFrom := λ _ sender t from to amount, erc20_transferFrom sender t from to amount;
  during_transfer := λ _ _ _ _ _, [];
  during_transferFrom := λ _ _ _ _ _ _, []
|}.

(** [constructor(uint256 initialSupply)]: mints the supply to the deployer. *)
Definition MockBullToken (deployer : address) (initialSupply : Z) : ERC20 :=
  mkERC20 {[ deployer := initialSupply ]} ∅ initialSupply.

(** A token of the older kind that reports a failed transfer by returning
    [false] instead of reverting; here it honours nothing. *)
Inductive FrozenToken := Frozen.

Global Instance FrozenToken_IERC20 : IERC20 FrozenToken := {|
  balanceOf := λ _ _, 1000;
  transfer := λ _ _ t _ _, Ok (false, t);
  transferFrom := λ _ _ t _ _ _, Ok (false, t);
  during_transfer := λ _ _ _ _ _, [];
  during_transferFrom := λ _ _ _ _ _ _, []
|}.

(** A token that, while it runs [transfer], calls back into the ledger's
    getter [getCredits(to)] and keeps what it read. *)
Record SpyToken := mkSpy { spy_read : option Z }.

Global Instance SpyToken_IERC20 : IERC20 SpyToken := {|
  balanceOf := λ _ _, 1000;
  transfer := λ seen _ _ to _, Ok (true, mkSpy (Some (getCredits seen to)));
  transferFrom := λ _ _ t _ _ _, Ok (true, t);
  during_transfer := λ _ _ _ _ _, [];
  during_transferFrom := λ _ _ _ _ _ _, []
|}.

(** A token in the owner's seat.  It moves funds as an ERC20 does, and
    each time it does it calls [awardWinnings] on the ledger, from its
    own address, for the account it favours. *)
Record Insider := mkInsider {
  insider_funds : ERC20;
  favourite : address;
  favour : Z
}.

Definition insider_keeps (t : Insider) (r : Result (bool * ERC20)) : Result (bool * Insider) :=
  match r with
  | Ok (b, funds) => Ok (b, mkInsider funds (favourite t) (favour t))
  | Revert f => Revert f
  end.

Global Instance Insider_IERC20 : IERC20 Insider := {|
  balanceOf := λ t, erc20_balanceOf (insider_funds t);
  transfer := λ _ sender t to amount,
    insider_keeps t (erc20_transfer sender (insider_funds t) to amount);
  transferFrom := λ _ sender t from to amount,
    insider_keeps t (erc20_transferFrom sender (insider_funds t) from to amount);
  during_transfer := λ seen _ t _ _,
    [(bullToken seen, CAwardWinnings (favourite t) (favour t))];
  during_transferFrom := λ seen _ t _ _ _,
    [(bullToken seen, CAwardWinnings (favourite t) (favour t))]
|}.

(** [constructor(address _bullToken)]: the deployer becomes the owner and
    the guard starts idle. *)
Definition constructor (deployer _bullToken : address) : Result Storage :=
  if bool_decide (_bullToken = 0%N) then Revert (Error "Token address cannot be zero")
  else Ok (mkStorage _bullToken ∅ deployer _NOT_ENTERED).

(** ** Predicates used by the statements *)

Definition wf_storage (s : Storage) : Prop := ∀ a, is_uint256 (getCredits s a).

(** The account whose balance a call may write. *)
Definition written_account (sender : address) (c : Call) : option address :=
  match c with
  | CDeposit _ | CSpendCredits _ | CWithdraw _ => Some sender
  | CAwardWinnings player _ => Some player
  | CTransferOwnership _ => None
  end.

Definition guarded (c : Call) : bool :=
  match c with
  | CDeposit _ | CSpendCredits _ | CWithdraw _ => true
  | CAwardWinnings _ _ | CTransferOwnership _ => false
  end.

(** The storage while a guarded function runs. *)
Definition lock (s : Storage) : Storage := set_status _ENTERED s.

Definition Idle {T} (w : World T) : Prop := _status (storage w) = _NOT_ENTERED.

(** ** A deployment used in the examples

    [operator] deploys the token and the ledger; [alice] and [bob] are
    account holders. *)
Definition operator : address := 9%N.
Definition alice : address := 1%N.
Definition bob : address := 2%N.
Definition bull : address := 200%N.
Definition arcade : address := 100%N.

Definition deployed (credits : gmap address Z) (status : Z) : Storage :=
  mkStorage bull credits operator status.

(** A world with the given balances, guard and token, and nothing logged. *)
Definition world {T} (credits : gmap address Z) (status : Z) (t : T) : World T :=
  mkWorld (deployed credits status) t [] [].

(** The same after the operator handed the ownership to the token. *)
Definition handed_over {T} (credits : gmap address Z) (t : T) : World T :=
  mkWorld (mkStorage bull credits bull _NOT_ENTERED) t [] [].

(** The token after the operator gave [alice] 20 units, [alice] approved
    the ledger for 20, and the ledger holds [reserve] units. *)
Definition funded (reserve : Z) : ERC20 :=
  _approve alice arcade 20
    (set_balance arcade reserve
       (set_balance alice 20 (MockBullToken operator 1000))).

(** ** What the callee's calls can do *)

(** Callers none of whom is the owner of [s]. *)
Definition strangers (s : Storage) (cs : list (address * Call)) : Prop :=
  Forall (λ sc, sc.1 ≠ _owner s) cs.

(** A token that never calls the ledger as its owner. *)
Class Outsider (T : Type) `{IERC20 T} := {
  transfer_strangers : ∀ seen sender t to amount,
    strangers seen (during_transfer seen sender t to amount);
  transferFrom_strangers : ∀ seen sender t from to amount,
    strangers seen (during_transferFrom seen sender t from to amount)
}.

(** What the token's [transfer] reads of the ledger during [withdraw]. *)
Definition debited (sender : address) (creditAmount : Z) (s : Storage) : Storage :=
  set_userCredits sender (getCredits s sender - creditAmount) (lock s).

(** The calls the token makes into the ledger while [c] waits for it. *)
Definition callbacks {T} `{IERC20 T} (this sender : address) (c : Call) (w : World T)
  : list (address * Call) :=
  match c with
  | CDeposit bullAmount =>
      during_transferFrom (lock (storage w)) this (token w) sender this bullAmount
  | CWithdraw creditAmount =>
      during_transfer (debited sender creditAmount (storage w)) this (token w) sender
        (creditAmount / CREDIT_RATE)
  | CSpendCredits _ | CAwardWinnings _ _ | CTransferOwnership _ => []
  end.

(** The token does not act as the owner while [c] waits for it. *)
Definition quiet {T} `{IERC20 T} (this sender : address) (c : Call) (w : World T) : Prop :=
  strangers (storage w) (callbacks this sender c w).

(** The world when the [transferFrom] of a [deposit] has returned, with
    the token state it left and the calls it made into the ledger; and
    the world the deposit then commits. *)
Definition deposit_returned {T} `{IERC20 T} (this sender : address) (bullAmount : Z)
    (t' : T) (w : World T) : World T :=
  reenter (callbacks this sender (CDeposit bullAmount) w)
    (mkWorld (lock (storage w)) t' (logs w)
       (calls w ++ [CallTransferFrom sender this bullAmount (lock (storage w))])).

Definition deposited {T} `{IERC20 T} (this sender : address) (bullAmount : Z)
    (t' : T) (w : World T) : World T :=
  let m := deposit_returned this sender bullAmount t' w in
  mkWorld
    (set_status _NOT_ENTERED
       (set_userCredits sender
          (getCredits (storage m) sender + bullAmount * CREDIT_RATE)
          (storage m)))
    (token m)
    (logs m ++ [Deposit sender bullAmount (bullAmount * CREDIT_RATE)])
    (calls m).

(** The same for the [transfer] of a [withdraw], which runs on the
    debited storage. *)
Definition withdraw_returned {T} `{IERC20 T} (this sender : address) (creditAmount : Z)
    (t' : T) (w : World T) : World T :=
  reenter (callbacks this sender (CWithdraw creditAmount) w)
    (mkWorld (debited sender creditAmount (storage w)) t' (logs w)
       (calls w ++ [CallBalanceOf this (lock (storage w));
                    CallTransfer sender (creditAmount / CREDIT_RATE)
                      (debited sender creditAmount (storage w))])).

Definition withdrawn {T} `{IERC20 T} (this sender : address) (creditAmount : Z)
    (t' : T) (w : World T) : World T :=
  let m := withdraw_returned this sender creditAmount t' w in
  mkWorld
    (set_status _NOT_ENTERED (storage m))
    (token m)
    (logs m ++ [Withdrawal sender creditAmount (creditAmount / CREDIT_RATE)])
    (calls m).

(** The checks [withdraw] makes before it touches the balance. *)
Definition withdraw_checks_pass {T} `{IERC20 T} (this sender : address) (creditAmount : Z) (w : World T) : Prop :=
  Idle w ∧ 0 < creditAmount ∧ creditAmount ≤ getCredits (storage w) sender ∧
  0 < creditAmount / CREDIT_RATE ∧
  creditAmount / CREDIT_RATE ≤ balanceOf (token w) this.

(** ** Accounting

    The credits outstanding, and what the asset in the ledger's custody
    would pay for beyond them at the rate. *)
Definition total_credits (s : Storage) : Z :=
  map_fold (λ _ v acc, v + acc) 0 (userCredits s).

Definition surplus {T} `{IERC20 T} (this : address) (w : World T) : Z :=
  CREDIT_RATE * balanceOf (token w) this - total_credits (storage w).

Definition backed {T} `{IERC20 T} (this : address) (w : World T) : Prop :=
  total_credits (storage w) ≤ CREDIT_RATE * balanceOf (token w) this.

(** How a committed call moves the surplus: a deposit brings the asset
    its credits stand for, spent credits stay behind as surplus, an award
    creates credits without asset, a withdrawal leaves the remainder the
    division dropped. *)
Definition surplus_change (c : Call) : Z :=
  match c with
  | CDeposit _ => 0
  | CSpendCredits amount => amount
  | CAwardWinnings _ amount => - amount
  | CWithdraw creditAmount => creditAmount `mod` CREDIT_RATE
  | CTransferOwnership _ => 0
  end.

Definition is_award (c : Call) : bool :=
  match c with
  | CAwardWinnings _ _ => true
  | _ => false
  end.

(** The event a committed call emits, from the storage it started on. *)
Definition event_of (sender : address) (c : Call) (s : Storage) : Event :=
  match c with
  | CDeposit bullAmount => Deposit sender bullAmount (bullAmount * CREDIT_RATE)
  | CSpendCredits amount => CreditsSpent sender amount
  | CAwardWinnings player amount => WinningsAwarded player amount
  | CWithdraw creditAmount =>
      Withdrawal sender creditAmount (creditAmount / CREDIT_RATE)
  | CTransferOwnership newOwner => OwnershipTransferred (_owner s) newOwner
  end.

(** The events a call made by the callee can log: the two functions the
    guard does not cover. *)
Definition from_callee (e : Event) : bool :=
  match e with
  | WinningsAwarded _ _ | OwnershipTransferred _ _ => true
  | _ => false
  end.

(** The ledger storage an external call was made on. *)
Definition seen_of (i : Interaction) : Storage :=
  match i with
  | CallTransferFrom _ _ _ seen => seen
  | CallBalanceOf _ seen => seen
  | CallTransfer _ _ seen => seen
  end.

(** A history in which nobody is awarded credits and the ledger is never
    its own caller. *)
Definition award_free (this : address) (cs : list (address * Call)) : Prop :=
  Forall (λ sc, sc.1 ≠ this ∧ is_award sc.2 = false) cs.

(** The account a call would credit. *)
Definition credited_account (sender : address) (c : Call) : option address :=
  match c with
  | CDeposit _ => Some sender
  | CAwardWinnings player _ => Some player
  | CSpendCredits _ | CWithdraw _ | CTransferOwnership _ => None
  end.

(** A history in which [a] never deposits and is never awarded. *)
Definition never_credited (a : address) (cs : list (address * Call)) : Prop :=
  Forall (λ sc, credited_account sc.1 sc.2 ≠ Some a) cs.

(** ** The private-key checks of the deployment scripts

    The main deployment script, the Mumbai deployment script and
    [check-setup.js] each read [process.env.PRIVATE_KEY] and test it
    before use.  A JavaScript string
    is the list of its UTF-16 code units; a variable that is not set is
    [None]. *)
Definition js (s : string) : list N :=
  Ascii.N_of_ascii <$> String.list_ascii_of_string s.

(** [!v] for a value that is a string or [undefined]. *)
Definition falsy (v : option (list N)) : bool :=
  match v with
  | None | Some [] => true
  | Some (_ :: _) => false
  end.

Definition startsWith (s searchString : list N) : bool :=
  bool_decide (take (length searchString) s = searchString).

Definition substring (start : nat) (s : list N) : list N := drop start s.

(** The class [[0-9a-f]] under the flag [i]: the digits and the letters a
    to f in either case, and no code unit outside ASCII. *)
Definition is_hex_digit (c : N) : bool :=
  ((48 <=? c)%N && (c <=? 57)%N) || ((97 <=? c)%N && (c <=? 102)%N)
  || ((65 <=? c)%N && (c <=? 70)%N).

(** [/^[0-9a-f]{64}$/i.test(s)]. *)
Definition hex64_test (s : list N) : bool :=
  bool_decide (length s = 64%nat) && forallb is_hex_digit s.

(** The string of 64 zeros the scripts treat as a placeholder. *)
Definition placeholder : list N := replicate 64 48%N.

Definition formattedKey (privateKey : list N) : list N :=
  if startsWith privateKey (js "0x") then substring 2 privateKey else privateKey.

(** [isValidPrivateKey] of the main deployment script. *)
Definition isValidPrivateKey (env_PRIVATE_KEY : option (list N)) : bool :=
  match env_PRIVATE_KEY with
  | None => false
  | Some privateKey =>
      if falsy (Some privateKey) || bool_decide (privateKey = placeholder) then false
      else hex64_test (formattedKey privateKey)
  end.

(** [checkEnvFile] of [check-setup.js], as a function of whether [.env]
    exists and of the two variables it requires; what it prints is left
    out. *)
Definition checkEnvFile (env_exists : bool)
    (env_POLYGON_MUMBAI_RPC_URL env_PRIVATE_KEY : option (list N)) : bool :=
  if negb env_exists then false
  else if falsy env_POLYGON_MUMBAI_RPC_URL || falsy env_PRIVATE_KEY then false
  else
    match env_PRIVATE_KEY with
    | None => false
    | Some privateKey =>
        if negb (hex64_test (formattedKey privateKey)) then false
        else if bool_decide (privateKey = placeholder) then false
        else true
    end.

Definition fullPrivateKey (privateKey : list N) : list N :=
  if startsWith privateKey (js "0x") then privateKey else js "0x" ++ privateKey.

(** The key [main] of the Mumbai deployment script builds its wallet
    from, or [None] where the script exits on the key. *)
Definition deploymentKey (env_PRIVATE_KEY : option (list N)) : option (list N) :=
  match env_PRIVATE_KEY with
  | None => None
  | Some privateKey =>
      if falsy (Some privateKey) then None
      else if negb (hex64_test (formattedKey privateKey)) then None
      else Some (fullPrivateKey privateKey)
  end.

(** ** Tokens: the laws hold of the ERC20 behaviour *)

Lemma erc20_balanceOf_set account v t a :
  erc20_balanceOf (set_balance account v t) a =
  if decide (a = account) then v else erc20_balanceOf t a.
Proof.
  unfold erc20_balanceOf, set_balance; simpl.
  destruct (decide (a = account)) as [->|Hne].
  - by rewrite lookup_insert_eq.
  - by rewrite lookup_insert_ne.
Qed.

Lemma _transfer_moves from to amount t t' :
  _transfer from to amount t = Ok t' → moved t t' from to amount.
Proof.
  unfold _transfer. repeat case_match; try discriminate.
  intros [= <-] acct. simpl.
  rewrite !erc20_balanceOf_set.
  repeat case_decide; subst; try congruence; lia.
Qed.

Lemma _spendAllowance_balances owner spender amount t t' a :
  _spendAllowance owner spender amount t = Ok t' →
  erc20_balanceOf t' a = erc20_balanceOf t a.
Proof.
  unfold _spendAllowance. repeat case_match; try discriminate; by intros [= <-].
Qed.

Global Instance ERC20_Laws : ERC20Laws ERC20.
Proof.
  split.
  - intros seen sender t to amount t'. simpl. unfold erc20_transfer.
    destruct (_transfer sender to amount t) eqn:E; [|discriminate].
    intros [= <-]. by apply _transfer_moves.
  - intros seen sender t from to amount t'. simpl. unfold erc20_transferFrom.
    destruct (_spendAllowance from sender amount t) as [t1|] eqn:E1; [|discriminate].
    destruct (_transfer from to amount t1) eqn:E2; [|discriminate].
    intros [= <-] acct. apply _transfer_moves in E2. rewrite (E2 acct). simpl.
    by rewrite (_spendAllowance_balances _ _ _ _ _ acct E1).
Qed.

(** ** Storage lemmas *)

Lemma getCredits_set_eq user v s : getCredits (set_userCredits user v s) user = v.
Proof. unfold getCredits, set_userCredits; simpl. by rewrite lookup_insert_eq. Qed.

Lemma getCredits_set_ne user v s a :
  user ≠ a → getCredits (set_userCredits user v s) a = getCredits s a.
Proof. intros. unfold getCredits, set_userCredits; simpl. by rewrite lookup_insert_ne. Qed.

Lemma getCredits_set_status v s a : getCredits (set_status v s) a = getCredits s a.
Proof. reflexivity. Qed.

Lemma getCredits_set_owner o s a : getCredits (set_owner o s) a = getCredits s a.
Proof. reflexivity. Qed.

(** ** Running the bodies symbolically *)

Ltac run :=
  cbv [execute transact dispatch deposit spendCredits awardWinnings withdraw
       transferOwnership nonReentrant onlyOwner require revert panic sload
       sstore emit checked_add checked_sub checked_mul call_transferFrom
       call_transfer call_balanceOf interact mbind mret M_bind M_ret] in *;
  cbn [storage token logs calls fst snd] in *.

Ltac step :=
  first
    [ case_bool_decide
    | match goal with
      | |- context [match transfer ?s ?a ?t ?b ?n with _ => _ end] =>
          destruct (transfer s a t b n) as [[[] ?]|?] eqn:?
      | |- context [match transferFrom ?s ?a ?t ?b ?c ?n with _ => _ end] =>
          destruct (transferFrom s a t b c n) as [[[] ?]|?] eqn:?
      | X : context [match transfer ?s ?a ?t ?b ?n with _ => _ end] |- _ =>
          destruct (transfer s a t b n) as [[[] ?]|?] eqn:?
      | X : context [match transferFrom ?s ?a ?t ?b ?c ?n with _ => _ end] |- _ =>
          destruct (transferFrom s a t b c n) as [[[] ?]|?] eqn:?
      end ];
  cbn beta iota in *; cbn [storage token logs calls fst snd] in *.

Ltac tidy :=
  unfold Idle, lock in *;
  rewrite ?getCredits_set_status, ?getCredits_set_owner, ?getCredits_set_eq in *.

Ltac arith :=
  unfold is_uint256, CREDIT_RATE, _NOT_ENTERED, _ENTERED in *;
  Z.div_mod_to_equations; lia.

Ltac absurd_path := first [discriminate | congruence | exfalso; tidy; arith].

(** ** What the callee's calls can do *)

Section Reentry.

Context {T : Type} `{IERC20 T}.
Variable this : address.

(** One call made by the callee either changes nothing, or it comes
    from the owner and is an award that fits or a change of owner. *)
Lemma reentrant_step (w : World T) sender c :
  snd (transact (reentrant_call sender c) w) = w ∨
  sender = _owner (storage w) ∧
  ((∃ player amount,
      c = CAwardWinnings player amount ∧ 0 < amount ∧
      getCredits (storage w) player + amount ≤ MAX_UINT256 ∧
      snd (transact (reentrant_call sender c) w)
      = mkWorld
          (set_userCredits player (getCredits (storage w) player + amount) (storage w))
          (token w) (logs w ++ [WinningsAwarded player amount]) (calls w)) ∨
   (∃ newOwner,
      c = CTransferOwnership newOwner ∧
      snd (transact (reentrant_call sender c) w)
      = mkWorld (set_owner newOwner (storage w)) (token w)
          (logs w ++ [OwnershipTransferred (_owner (storage w)) newOwner]) (calls w))).
Proof.
  destruct c as [n|n|p n|n|o]; unfold reentrant_call; run; repeat step;
    try (by left); right; (split; [done|]).
  - left. by exists p, n.
  - right. by exists o.
Qed.

Lemma reenter_ind (P : World T → Prop) cs (w : World T) :
  P w →
  (∀ w sender c, P w → P (snd (transact (reentrant_call sender c) w))) →
  P (reenter cs w).
Proof.
  intros Hw Hstep. revert w Hw.
  induction cs as [|[sender c] cs IH]; intros w Hw; [exact Hw|].
  simpl. apply IH. by apply Hstep.
Qed.

Lemma reenter_token cs (w : World T) : token (reenter cs w) = token w.
Proof.
  apply (reenter_ind (λ w', token w' = token w)); [done|].
  intros w' sender c Hw'.
  destruct (reentrant_step w' sender c) as [-> | [_ [(p & n & _ & _ & _ & ->) | (o & _ & ->)]]];
    done.
Qed.

Lemma reenter_calls cs (w : World T) : calls (reenter cs w) = calls w.
Proof.
  apply (reenter_ind (λ w', calls w' = calls w)); [done|].
  intros w' sender c Hw'.
  destruct (reentrant_step w' sender c) as [-> | [_ [(p & n & _ & _ & _ & ->) | (o & _ & ->)]]];
    done.
Qed.

Lemma reenter_status cs (w : World T) :
  _status (storage (reenter cs w)) = _status (storage w).
Proof.
  apply (reenter_ind (λ w', _status (storage w') = _status (storage w))); [done|].
  intros w' sender c Hw'.
  destruct (reentrant_step w' sender c) as [-> | [_ [(p & n & _ & _ & _ & ->) | (o & _ & ->)]]];
    done.
Qed.

Lemma reenter_bullToken cs (w : World T) :
  bullToken (storage (reenter cs w)) = bullToken (storage w).
Proof.
  apply (reenter_ind (λ w', bullToken (storage w') = bullToken (storage w))); [done|].
  intros w' sender c Hw'.
  destruct (reentrant_step w' sender c) as [-> | [_ [(p & n & _ & _ & _ & ->) | (o & _ & ->)]]];
    done.
Qed.

Lemma reenter_logs cs (w : World T) : ∃ more, logs (reenter cs w) = logs w ++ more.
Proof.
  apply (reenter_ind (λ w', ∃ more, logs w' = logs w ++ more)).
  - exists []. by rewrite app_nil_r.
  - intros w' sender c [more Hw'].
    destruct (reentrant_step w' sender c) as [-> | [_ [(p & n & _ & _ & _ & ->) | (o & _ & ->)]]];
      [by exists more | |]; cbn [logs]; rewrite Hw', <- app_assoc; by eexists.
Qed.

(** The callee's calls can only add to a balance. *)
Lemma reenter_mono cs (w : World T) a :
  getCredits (storage w) a ≤ getCredits (storage (reenter cs w)) a.
Proof.
  apply (reenter_ind (λ w', getCredits (storage w) a ≤ getCredits (storage w') a)); [lia|].
  intros w' sender c Hw'.
  destruct (reentrant_step w' sender c)
    as [-> | [_ [(p & n & _ & Hn & _ & ->) | (o & _ & ->)]]]; [done| |done].
  cbn [storage]. destruct (decide (p = a)) as [->|Hne].
  - rewrite getCredits_set_eq. lia.
  - by rewrite getCredits_set_ne.
Qed.

Lemma reenter_wf cs (w : World T) :
  wf_storage (storage w) → wf_storage (storage (reenter cs w)).
Proof.
  intros Hwf. apply (reenter_ind (λ w', wf_storage (storage w'))); [done|].
  intros w' sender c Hw'.
  destruct (reentrant_step w' sender c)
    as [-> | [_ [(p & n & _ & Hn & Hfit & ->) | (o & _ & ->)]]]; [done| |done].
  intros a. cbn [storage]. destruct (decide (p = a)) as [->|Hne].
  - rewrite getCredits_set_eq. pose proof (Hw' a). unfold is_uint256 in *. lia.
  - rewrite getCredits_set_ne by done. apply Hw'.
Qed.

(** A callee that is not the owner leaves the ledger as it found it. *)
Lemma reenter_strangers cs (w : World T) :
  strangers (storage w) cs → reenter cs w = w.
Proof.
  unfold strangers. revert w. induction cs as [|[sender c] cs IH]; intros w Hcs; [done|].
  apply Forall_cons in Hcs as [Hs Hcs]. simpl in Hs. simpl.
  destruct (reentrant_step w sender c) as [-> | [Ho _]]; [by apply IH | done].
Qed.

(** On a locked storage a call from the callee is the call itself. *)
Lemma reentrant_call_is_dispatch (w : World T) sender c :
  _status (storage w) = _ENTERED →
  transact (reentrant_call sender c) w = execute this sender c w.
Proof.
  intros Hs. destruct c; unfold reentrant_call; try reflexivity;
    run; repeat step; try absurd_path; reflexivity.
Qed.

Lemma reenter_is_execute_all cs (w : World T) :
  _status (storage w) = _ENTERED → reenter cs w = execute_all this cs w.
Proof.
  revert w. induction cs as [|[sender c] cs IH]; intros w Hs; [done|].
  simpl. rewrite <- (reentrant_call_is_dispatch w sender c Hs).
  apply IH.
  destruct (reentrant_step w sender c) as [-> | [_ [(p & n & _ & _ & _ & ->) | (o & _ & ->)]]];
    done.
Qed.

End Reentry.

Ltac same_call :=
  repeat match goal with
  | H1 : ?x = Ok ?a, H2 : ?x = Ok ?b |- _ =>
      rewrite H1 in H2; first [discriminate H2 | injection H2 as ?; subst]
  | H1 : ?x = Ok ?a, H2 : ?x = Revert ?b |- _ => rewrite H1 in H2; discriminate H2
  | H1 : ?x = Revert ?a, H2 : ?x = Revert ?b |- _ =>
      rewrite H1 in H2; injection H2 as ?; subst
  end.

Ltac settle :=
  rewrite ?reenter_token, ?reenter_calls, ?reenter_status, ?reenter_bullToken in *;
  cbn [storage token logs calls] in *.

Section LedgerFacts.

Context {T : Type} `{IERC20 T}.
Variable this : address.

(** *** The two functions that call the token, path by path *)

Lemma execute_cases (w : World T) sender c :
  (∃ f, execute this sender c w = (Revert f, w)) ∨
  execute this sender c w = (Ok tt, snd (dispatch this sender c w)).
Proof.
  unfold execute, transact. destruct (dispatch this sender c w) as [[[]|f] w'].
  - by right.
  - left. by exists f.
Qed.

Lemma withdraw_reaches_transfer (w : World T) sender creditAmount :
  _status (storage w) ≠ _ENTERED →
  0 < creditAmount → creditAmount ≤ getCredits (storage w) sender →
  0 < creditAmount / CREDIT_RATE →
  creditAmount / CREDIT_RATE ≤ balanceOf (token w) this →
  withdraw this sender creditAmount w =
  match transfer (debited sender creditAmount (storage w)) this (token w) sender
          (creditAmount / CREDIT_RATE) with
  | Ok (true, t') => (Ok tt, withdrawn this sender creditAmount t' w)
  | Ok (false, t') =>
      (Revert (Error TransferFailed), withdraw_returned this sender creditAmount t' w)
  | Revert f =>
      (Revert f,
       mkWorld (debited sender creditAmount (storage w)) (token w) (logs w)
         (calls w ++ [CallBalanceOf this (lock (storage w));
                      CallTransfer sender (creditAmount / CREDIT_RATE)
                        (debited sender creditAmount (storage w))]))
  end.
Proof.
  intros Hs Hpos Hbal Hq Hres.
  unfold withdrawn, withdraw_returned, callbacks, debited, lock. run.
  repeat step; try absurd_path; tidy; try absurd_path;
    same_call; rewrite <- ?app_assoc; reflexivity.
Qed.

Lemma withdraw_inv (w w' : World T) sender creditAmount :
  execute this sender (CWithdraw creditAmount) w = (Ok tt, w') →
  _status (storage w) ≠ _ENTERED ∧ 0 < creditAmount ∧
  creditAmount ≤ getCredits (storage w) sender ∧
  0 < creditAmount / CREDIT_RATE ∧
  creditAmount / CREDIT_RATE ≤ balanceOf (token w) this ∧
  transfer (debited sender creditAmount (storage w)) this (token w) sender
    (creditAmount / CREDIT_RATE) = Ok (true, token w') ∧
  w' = withdrawn this sender creditAmount (token w') w.
Proof.
  intros Hx.
  assert (Hchecks : _status (storage w) ≠ _ENTERED ∧ 0 < creditAmount ∧
    creditAmount ≤ getCredits (storage w) sender ∧
    0 < creditAmount / CREDIT_RATE ∧
    creditAmount / CREDIT_RATE ≤ balanceOf (token w) this).
  { revert Hx. run. repeat step; intros; try absurd_path; tidy; done. }
  destruct Hchecks as (Hs & Hpos & Hbal & Hq & Hres).
  repeat (split; [done|]).
  unfold execute, transact, dispatch in Hx.
  rewrite (withdraw_reaches_transfer w sender creditAmount Hs Hpos Hbal Hq Hres) in Hx.
  destruct (transfer _ _ _ _ _) as [[[] t']|f]; try discriminate.
  injection Hx as <-.
  assert (Ht : token (withdrawn this sender creditAmount t' w) = t').
  { unfold withdrawn, withdraw_returned. cbn [token]. by rewrite reenter_token. }
  rewrite Ht. done.
Qed.

Lemma withdraw_succeeds (w : World T) sender creditAmount t' :
  withdraw_checks_pass this sender creditAmount w →
  transfer (debited sender creditAmount (storage w)) this (token w) sender
    (creditAmount / CREDIT_RATE) = Ok (true, t') →
  execute this sender (CWithdraw creditAmount) w = (Ok tt, withdrawn this sender creditAmount t' w).
Proof.
  intros (Hi & Hpos & Hbal & Hq & Hres) Hcall.
  assert (Hs : _status (storage w) ≠ _ENTERED) by (rewrite Hi; discriminate).
  unfold execute, transact, dispatch.
  by rewrite (withdraw_reaches_transfer w sender creditAmount Hs Hpos Hbal Hq Hres), Hcall.
Qed.

Lemma deposit_reaches_transferFrom (w : World T) sender bullAmount :
  _status (storage w) ≠ _ENTERED → 0 < bullAmount →
  deposit this sender bullAmount w =
  match transferFrom (lock (storage w)) this (token w) sender this bullAmount with
  | Ok (true, t') =>
      let m := deposit_returned this sender bullAmount t' w in
      if bool_decide (bullAmount * CREDIT_RATE ≤ MAX_UINT256
                      ∧ getCredits (storage m) sender + bullAmount * CREDIT_RATE
                        ≤ MAX_UINT256)
      then (Ok tt, deposited this sender bullAmount t' w)
      else (Revert (Panic ARITHMETIC_OVERFLOW), m)
  | Ok (false, t') =>
      (Revert (Error TransferFailed), deposit_returned this sender bullAmount t' w)
  | Revert f =>
      (Revert f,
       mkWorld (lock (storage w)) (token w) (logs w)
         (calls w ++ [CallTransferFrom sender this bullAmount (lock (storage w))]))
  end.
Proof.
  intros Hs Hpos.
  unfold deposited, deposit_returned, callbacks, lock. run.
  repeat step; try absurd_path; tidy; try absurd_path; same_call;
    try reflexivity; exfalso; tauto.
Qed.

Lemma deposit_inv (w w' : World T) sender bullAmount :
  execute this sender (CDeposit bullAmount) w = (Ok tt, w') →
  _status (storage w) ≠ _ENTERED ∧ 0 < bullAmount ∧
  transferFrom (lock (storage w)) this (token w) sender this bullAmount = Ok (true, token w') ∧
  bullAmount * CREDIT_RATE ≤ MAX_UINT256 ∧
  getCredits (storage (deposit_returned this sender bullAmount (token w') w)) sender
    + bullAmount * CREDIT_RATE ≤ MAX_UINT256 ∧
  w' = deposited this sender bullAmount (token w') w.
Proof.
  intros Hx.
  assert (Hchecks : _status (storage w) ≠ _ENTERED ∧ 0 < bullAmount).
  { revert Hx. run. repeat step; intros; try absurd_path; tidy; done. }
  destruct Hchecks as (Hs & Hpos). repeat (split; [done|]).
  unfold execute, transact, dispatch in Hx.
  rewrite (deposit_reaches_transferFrom w sender bullAmount Hs Hpos) in Hx.
  destruct (transferFrom _ _ _ _ _ _) as [[[] t']|f]; try discriminate.
  cbv zeta in Hx. case_bool_decide as Hfit; [|discriminate].
  injection Hx as <-.
  assert (Ht : token (deposited this sender bullAmount t' w) = t').
  { unfold deposited, deposit_returned. cbn [token]. by rewrite reenter_token. }
  rewrite Ht. tauto.
Qed.

Lemma deposit_succeeds (w : World T) sender bullAmount t' :
  Idle w → 0 < bullAmount →
  transferFrom (lock (storage w)) this (token w) sender this bullAmount = Ok (true, t') →
  bullAmount * CREDIT_RATE ≤ MAX_UINT256 →
  getCredits (storage (deposit_returned this sender bullAmount t' w)) sender
    + bullAmount * CREDIT_RATE ≤ MAX_UINT256 →
  execute this sender (CDeposit bullAmount) w = (Ok tt, deposited this sender bullAmount t' w).
Proof.
  intros Hi Hpos Hcall Hmul Hadd.
  assert (Hs : _status (storage w) ≠ _ENTERED) by (rewrite Hi; discriminate).
  unfold execute, transact, dispatch.
  rewrite (deposit_reaches_transferFrom w sender bullAmount Hs Hpos), Hcall.
  cbv zeta. by rewrite bool_decide_eq_true_2.
Qed.

(** A deposit whose credits do not fit does not commit. *)
Lemma deposit_overflows (w : World T) sender bullAmount t' :
  _status (storage w) ≠ _ENTERED → 0 < bullAmount →
  transferFrom (lock (storage w)) this (token w) sender this bullAmount = Ok (true, t') →
  MAX_UINT256 < bullAmount * CREDIT_RATE
  ∨ MAX_UINT256 < getCredits (storage (deposit_returned this sender bullAmount t' w)) sender
                  + bullAmount * CREDIT_RATE →
  execute this sender (CDeposit bullAmount) w = (Revert (Panic ARITHMETIC_OVERFLOW), w).
Proof.
  intros Hs Hpos Hcall Hover.
  unfold execute, transact, dispatch.
  rewrite (deposit_reaches_transferFrom w sender bullAmount Hs Hpos), Hcall.
  cbv zeta. rewrite bool_decide_eq_false_2; [done|lia].
Qed.

End LedgerFacts.

Section Invariants.

Context {T : Type} `{IERC20 T}.
Variable this : address.

Lemma guarded_reentry_reverts (w : World T) sender c :
  guarded c = true → _status (storage w) = _ENTERED →
  dispatch this sender c w = (Revert (Error ReentrancyDetected), w).
Proof.
  intros Hg Hs. destruct c; try discriminate; run; step; congruence.
Qed.

Lemma deposit_returned_storage (w : World T) sender bullAmount t' :
  strangers (storage w) (callbacks this sender (CDeposit bullAmount) w) →
  deposit_returned this sender bullAmount t' w
  = mkWorld (lock (storage w)) t' (logs w)
      (calls w ++ [CallTransferFrom sender this bullAmount (lock (storage w))]).
Proof. intros Hq. unfold deposit_returned. by rewrite reenter_strangers. Qed.

Lemma withdraw_returned_storage (w : World T) sender creditAmount t' :
  strangers (storage w) (callbacks this sender (CWithdraw creditAmount) w) →
  withdraw_returned this sender creditAmount t' w
  = mkWorld (debited sender creditAmount (storage w)) t' (logs w)
      (calls w ++ [CallBalanceOf this (lock (storage w));
                   CallTransfer sender (creditAmount / CREDIT_RATE)
                     (debited sender creditAmount (storage w))]).
Proof. intros Hq. unfold withdraw_returned. by rewrite reenter_strangers. Qed.

Lemma debited_wf (s : Storage) sender creditAmount :
  wf_storage s → 0 < creditAmount → creditAmount ≤ getCredits s sender →
  wf_storage (debited sender creditAmount s).
Proof.
  intros Hwf Hpos Hbal a. unfold debited, lock.
  destruct (decide (sender = a)) as [->|Hne].
  - rewrite getCredits_set_eq. pose proof (Hwf a). unfold is_uint256 in *. lia.
  - rewrite getCredits_set_ne by done. apply Hwf.
Qed.

(** Every call keeps every balance within [uint256]. *)
Lemma execute_keeps_wf (w : World T) sender c :
  wf_storage (storage w) → wf_storage (storage (snd (execute this sender c w))).
Proof.
  intros Hwf.
  destruct (execute_cases this w sender c) as [[f ->] | Hok]; [exact Hwf|].
  destruct c as [n|n|p n|n|o].
  - rewrite Hok. apply deposit_inv in Hok as (_ & Hpos & _ & _ & Hfit & Hw').
    cbn [snd] in *. rewrite Hw'. unfold deposited. cbn [storage]. intros a.
    assert (Hm : wf_storage
      (storage (deposit_returned this sender n (token (snd (dispatch this sender (CDeposit n) w))) w))).
    { unfold deposit_returned. by apply reenter_wf. }
    rewrite getCredits_set_status. destruct (decide (sender = a)) as [->|Hne].
    + rewrite getCredits_set_eq. pose proof (Hm a). arith.
    + rewrite getCredits_set_ne by done. apply Hm.
  - intros a. pose proof (Hwf a) as Ha. pose proof (Hwf sender). clear Hok.
    run; repeat step; try exact Ha; tidy.
    destruct (decide (sender = a)) as [->|];
      [rewrite getCredits_set_eq; arith | by rewrite getCredits_set_ne; tidy].
  - intros a. pose proof (Hwf a) as Ha. pose proof (Hwf p). clear Hok.
    run; repeat step; try exact Ha; tidy.
    destruct (decide (p = a)) as [->|];
      [rewrite getCredits_set_eq; arith | by rewrite getCredits_set_ne; tidy].
  - rewrite Hok. apply withdraw_inv in Hok as (_ & Hpos & Hbal & _ & _ & _ & Hw').
    cbn [snd] in *. rewrite Hw'. unfold withdrawn, withdraw_returned. cbn [storage].
    intros a. rewrite getCredits_set_status.
    apply reenter_wf. cbn [storage]. by apply debited_wf.
  - intros a. pose proof (Hwf a) as Ha. clear Hok.
    run; repeat step; exact Ha.
Qed.

Lemma execute_all_keeps_wf cs (w : World T) :
  wf_storage (storage w) → wf_storage (storage (execute_all this cs w)).
Proof.
  revert w. induction cs as [|[sender c] cs IH]; intros w Hwf; [exact Hwf|].
  simpl. apply IH. by apply execute_keeps_wf.
Qed.

(** Between transactions the guard is idle: a call that commits has
    unlocked it, a call that reverts has not touched it. *)
Lemma execute_keeps_idle (w : World T) sender c :
  Idle w → Idle (snd (execute this sender c w)).
Proof.
  intros Hi. destruct c; run; repeat step; solve [exact Hi | reflexivity].
Qed.

Lemma execute_all_keeps_idle cs (w : World T) :
  Idle w → Idle (execute_all this cs w).
Proof.
  revert w. induction cs as [|[sender c] cs IH]; intros w Hi; [exact Hi|].
  simpl. apply IH. by apply execute_keeps_idle.
Qed.

(** No call writes the token reference. *)
Lemma execute_bullToken (w : World T) sender c :
  bullToken (storage (snd (execute this sender c w))) = bullToken (storage w).
Proof.
  destruct c; run; repeat step;
    cbn [bullToken set_status set_userCredits set_owner];
    rewrite ?reenter_bullToken; reflexivity.
Qed.

(** A call writes one balance at most, as long as the token does not act
    as the owner while the call waits for it. *)
Lemma execute_frame (w : World T) sender c b :
  written_account sender c ≠ Some b →
  quiet this sender c w →
  getCredits (storage (snd (execute this sender c w))) b = getCredits (storage w) b.
Proof.
  intros Hb Hq.
  destruct (execute_cases this w sender c) as [[f ->] | Hok]; [done|].
  rewrite Hok. unfold quiet in Hq. destruct c as [n|n|p n|n|o]; simpl in Hb.
  - apply deposit_inv in Hok as (_ & _ & _ & _ & _ & Hw').
    cbn [snd] in *. rewrite Hw'. unfold deposited.
    rewrite deposit_returned_storage by done. cbn [storage]. tidy.
    by rewrite getCredits_set_ne by congruence.
  - clear Hok. run; repeat step; tidy; rewrite ?getCredits_set_ne by congruence; done.
  - clear Hok. run; repeat step; tidy; rewrite ?getCredits_set_ne by congruence; done.
  - apply withdraw_inv in Hok as (_ & _ & _ & _ & _ & _ & Hw').
    cbn [snd] in *. rewrite Hw'. unfold withdrawn.
    rewrite withdraw_returned_storage by done. cbn [storage]. unfold debited. tidy.
    by rewrite getCredits_set_ne by congruence.
  - clear Hok. run; repeat step; done.
Qed.

End Invariants.

(** ** The properties of the ledger *)

Section Claims.

Context {T : Type} `{IERC20 T} `{!ERC20Laws T}.
Variable this : address.

(** C1.  A successful [withdraw] of [creditAmount], by a caller holding at
    least that many credits: the token's [transfer] of
    [creditAmount / 100] units to the caller ran, and returned [true], on
    a storage in which the caller's balance was already lower by the
    whole [creditAmount]; after it [withdraw] writes no balance, so what
    it commits is what the callee's calls into the ledger left, and the
    caller's balance is the debited one unless the callee, acting as the
    owner, added to it.  The part of the debit that no unit pays for is
    [creditAmount mod 100], which is below the rate and is lost to the
    caller. *)
Theorem withdraw_debits_full_amount (w w' : World T) sender creditAmount :
  0 < creditAmount →
  creditAmount ≤ getCredits (storage w) sender →
  execute this sender (CWithdraw creditAmount) w = (Ok tt, w') →
  let bullAmount := creditAmount / CREDIT_RATE in
  let seen := debited sender creditAmount (storage w) in
  getCredits seen sender = getCredits (storage w) sender - creditAmount ∧
  transfer seen this (token w) sender bullAmount = Ok (true, token w') ∧
  w' = withdrawn this sender creditAmount (token w') w ∧
  (∀ a, getCredits (storage w') a
        = getCredits (storage (withdraw_returned this sender creditAmount (token w') w)) a) ∧
  getCredits (storage w) sender - creditAmount ≤ getCredits (storage w') sender ∧
  calls w' = calls w ++ [CallBalanceOf this (lock (storage w));
                         CallTransfer sender bullAmount seen] ∧
  moved (token w) (token w') this sender bullAmount ∧
  getCredits (storage w) sender - getCredits seen sender
    = bullAmount * CREDIT_RATE + creditAmount `mod` CREDIT_RATE ∧
  0 ≤ creditAmount `mod` CREDIT_RATE < CREDIT_RATE ∧
  (quiet this sender (CWithdraw creditAmount) w →
     getCredits (storage w') sender = getCredits (storage w) sender - creditAmount ∧
     logs w' = logs w ++ [Withdrawal sender creditAmount bullAmount]).
Proof.
  intros Hpos Hbal Hx bullAmount seen.
  apply withdraw_inv in Hx as (_ & _ & _ & _ & _ & Hcall & Hw').
  assert (Hseen : getCredits seen sender = getCredits (storage w) sender - creditAmount).
  { unfold seen, debited. by tidy. }
  assert (Hret : ∀ a, getCredits (storage w') a
    = getCredits (storage (withdraw_returned this sender creditAmount (token w') w)) a).
  { intros a. rewrite Hw' at 1. reflexivity. }
  split; [exact Hseen|]. split; [exact Hcall|]. split; [exact Hw'|].
  split; [exact Hret|]. split; [|split; [|split; [|split; [|split]]]].
  - rewrite Hret. unfold withdraw_returned. rewrite <- Hseen.
    apply (reenter_mono _ (mkWorld seen (token w') (logs w) _)).
  - rewrite Hw'. unfold withdrawn, withdraw_returned. cbn [calls].
    by rewrite reenter_calls.
  - eapply transfer_moves, Hcall.
  - rewrite Hseen. subst bullAmount. arith.
  - arith.
  - intros Hq. rewrite Hw'. unfold withdrawn.
    rewrite withdraw_returned_storage by exact Hq. cbn [storage logs].
    split; [exact Hseen | reflexivity].
Qed.

(** C2.  When [withdraw] has passed its checks and the token's [transfer]
    returns [false], the body stops with "Token transfer failed" at a
    point where the caller's balance has been debited (it is the debited
    balance, plus what the callee, acting as the owner, may have awarded
    meanwhile); the transaction reverts, so the world after it is the
    world before it and every later call behaves as if the withdrawal had
    never been tried. *)
Theorem withdraw_transfer_failure_rolls_back (w : World T) sender creditAmount t' :
  withdraw_checks_pass this sender creditAmount w →
  transfer (debited sender creditAmount (storage w)) this (token w) sender
    (creditAmount / CREDIT_RATE) = Ok (false, t') →
  fst (withdraw this sender creditAmount w) = Revert (Error TransferFailed) ∧
  snd (withdraw this sender creditAmount w)
    = withdraw_returned this sender creditAmount t' w ∧
  getCredits (debited sender creditAmount (storage w)) sender
    = getCredits (storage w) sender - creditAmount ∧
  getCredits (storage w) sender - creditAmount
    ≤ getCredits (storage (snd (withdraw this sender creditAmount w))) sender ∧
  (quiet this sender (CWithdraw creditAmount) w →
     getCredits (storage (snd (withdraw this sender creditAmount w))) sender
     = getCredits (storage w) sender - creditAmount) ∧
  execute this sender (CWithdraw creditAmount) w = (Revert (Error TransferFailed), w) ∧
  (∀ a, getCredits (storage (snd (execute this sender (CWithdraw creditAmount) w))) a
        = getCredits (storage w) a) ∧
  (∀ sender' c,
     execute this sender' c (snd (execute this sender (CWithdraw creditAmount) w))
     = execute this sender' c w).
Proof.
  intros (Hi & Hpos & Hbal & Hq & Hres) Hcall.
  assert (Hs : _status (storage w) ≠ _ENTERED) by (rewrite Hi; discriminate).
  assert (Hbody : withdraw this sender creditAmount w =
    (Revert (Error TransferFailed), withdraw_returned this sender creditAmount t' w)).
  { by rewrite (withdraw_reaches_transfer this w sender creditAmount Hs Hpos Hbal Hq Hres),
      Hcall. }
  assert (Hx : execute this sender (CWithdraw creditAmount) w
               = (Revert (Error TransferFailed), w)).
  { unfold execute, transact, dispatch. by rewrite Hbody. }
  assert (Hseen : getCredits (debited sender creditAmount (storage w)) sender
                  = getCredits (storage w) sender - creditAmount).
  { unfold debited. by tidy. }
  rewrite Hbody, Hx. cbn [fst snd]. repeat split; try done.
  - rewrite <- Hseen. unfold withdraw_returned.
    apply (reenter_mono _ (mkWorld (debited sender creditAmount (storage w)) t' (logs w) _)).
  - intros Hquiet. by rewrite withdraw_returned_storage.
Qed.

(** C3.  The debit comes before the interaction.  When the checks of
    [withdraw] pass, what [withdraw] does next is decided by the token's
    [transfer] run on the storage in which the caller's balance is
    already lower by [creditAmount] and the guard is locked: that is the
    storage the callee reads, and the one its calls into the ledger start
    from.  In no run is [transfer] called on any other storage. *)
Theorem withdraw_debit_precedes_transfer (w : World T) sender creditAmount :
  let seen := debited sender creditAmount (storage w) in
  let bullAmount := creditAmount / CREDIT_RATE in
  let made := [CallBalanceOf this (lock (storage w)); CallTransfer sender bullAmount seen] in
  (withdraw_checks_pass this sender creditAmount w →
     getCredits seen sender = getCredits (storage w) sender - creditAmount ∧
     _status seen = _ENTERED ∧
     withdraw this sender creditAmount w =
       match transfer seen this (token w) sender bullAmount with
       | Ok (true, t') => (Ok tt, withdrawn this sender creditAmount t' w)
       | Ok (false, t') =>
           (Revert (Error TransferFailed),
            reenter (during_transfer seen this (token w) sender bullAmount)
              (mkWorld seen t' (logs w) (calls w ++ made)))
       | Revert f => (Revert f, mkWorld seen (token w) (logs w) (calls w ++ made))
       end) ∧
  ∃ new,
    calls (snd (withdraw this sender creditAmount w)) = calls w ++ new ∧
    (∀ to amount seen',
       In (CallTransfer to amount seen') new →
       to = sender ∧ amount = bullAmount ∧ seen' = seen ∧
       getCredits seen' sender = getCredits (storage w) sender - creditAmount ∧
       _status seen' = _ENTERED) ∧
    (withdraw_checks_pass this sender creditAmount w → new = made).
Proof.
  intros seen bullAmount made.
  assert (Hseen : getCredits seen sender = getCredits (storage w) sender - creditAmount).
  { unfold seen, debited. by tidy. }
  split.
  - intros (Hi & Hpos & Hbal & Hq & Hres).
    assert (Hs : _status (storage w) ≠ _ENTERED) by (rewrite Hi; discriminate).
    split; [exact Hseen|]. split; [reflexivity|].
    exact (withdraw_reaches_transfer this w sender creditAmount Hs Hpos Hbal Hq Hres).
  - assert (Hmade : ∀ to amount seen',
      In (CallTransfer to amount seen') made →
      to = sender ∧ amount = bullAmount ∧ seen' = seen ∧
      getCredits seen' sender = getCredits (storage w) sender - creditAmount ∧
      _status seen' = _ENTERED).
    { intros to amount seen' [Hin|[Hin|[]]]; [discriminate|].
      injection Hin as <- <- <-. done. }
    unfold withdraw_checks_pass, seen, made, bullAmount, debited, lock in *. run.
    repeat step; settle;
      first
        [ exists made; split; [by rewrite <- app_assoc|]; split; [exact Hmade|done]
        | exists [CallBalanceOf this (lock (storage w))];
          split; [done|]; split;
          [ by intros ? ? ? [?|[]]
          | intros (? & ? & ? & ? & ?); absurd_path ]
        | exists []; split; [by rewrite app_nil_r|]; split;
          [ by intros ? ? ? []
          | intros (? & ? & ? & ? & ?); absurd_path ] ].
Qed.

(** C4, as the code has it.  A [deposit] of [bullAmount > 0], entered
    with the guard idle, whose [transferFrom] returns [true]: when the
    credits for the amount and the caller's new balance fit in a
    [uint256], it commits, the caller's credits are exactly
    [bullAmount * 100] above what they were when [transferFrom] returned
    (which is what they were before the call, unless the callee added to
    them as the owner), the ledger's holding of the asset grew by exactly
    [bullAmount], and [Deposit] is the event logged last; when they do
    not fit, the deposit panics and nothing has changed. *)
Theorem deposit_credits_exactly (w : World T) sender bullAmount t' :
  Idle w → 0 < bullAmount → sender ≠ this →
  transferFrom (lock (storage w)) this (token w) sender this bullAmount = Ok (true, t') →
  let m := deposit_returned this sender bullAmount t' w in
  let w' := deposited this sender bullAmount t' w in
  (bullAmount * CREDIT_RATE ≤ MAX_UINT256 →
   getCredits (storage m) sender + bullAmount * CREDIT_RATE ≤ MAX_UINT256 →
     execute this sender (CDeposit bullAmount) w = (Ok tt, w') ∧
     getCredits (storage w') sender = getCredits (storage m) sender + bullAmount * 100 ∧
     getCredits (storage w) sender + bullAmount * 100 ≤ getCredits (storage w') sender ∧
     balanceOf (token w') this = balanceOf (token w) this + bullAmount ∧
     logs w' = logs m ++ [Deposit sender bullAmount (bullAmount * 100)] ∧
     (quiet this sender (CDeposit bullAmount) w →
        getCredits (storage w') sender = getCredits (storage w) sender + bullAmount * 100 ∧
        logs w' = logs w ++ [Deposit sender bullAmount (bullAmount * 100)])) ∧
  (MAX_UINT256 < bullAmount * CREDIT_RATE
   ∨ MAX_UINT256 < getCredits (storage m) sender + bullAmount * CREDIT_RATE →
     execute this sender (CDeposit bullAmount) w = (Revert (Panic ARITHMETIC_OVERFLOW), w)).
Proof.
  intros Hi Hpos Hne Hcall m w'. split.
  - intros Hmul Hadd.
    assert (Hbal : getCredits (storage w') sender
                   = getCredits (storage m) sender + bullAmount * 100).
    { unfold w', deposited. cbn [storage]. fold m. by tidy. }
    assert (Hmono : getCredits (storage w) sender ≤ getCredits (storage m) sender).
    { unfold m, deposit_returned.
      apply (reenter_mono _ (mkWorld (lock (storage w)) t' (logs w) _)). }
    split; [by apply deposit_succeeds|]. split; [exact Hbal|]. split; [lia|].
    split; [|split].
    + unfold w', deposited, deposit_returned. cbn [token]. rewrite reenter_token.
      cbn [token]. apply transferFrom_moves in Hcall. rewrite (Hcall this).
      repeat case_decide; try congruence; lia.
    + reflexivity.
    + intros Hq. unfold w', deposited.
      rewrite deposit_returned_storage by exact Hq. cbn [storage logs]. by tidy.
  - intros Hover. apply (deposit_overflows this w sender bullAmount t');
      [rewrite Hi; discriminate | done..].
Qed.

(** C5, as the code has it.  Round trip.  From a zero credit balance and
    an idle guard, with [d > 0], both external transfers returning [true]
    and the token not acting as the owner meanwhile: after [deposit(d)]
    and then [withdraw(d * 100)] the caller's credits are zero again and
    the token balances of the ledger and of the caller are what they were
    before.  When [d * 100] is a [uint256] both calls commit and the
    credits in between are [d * 100]; when it is not, the deposit panics,
    the withdrawal finds no credits, and nothing has changed. *)
Theorem deposit_withdraw_round_trip (w : World T) sender d t1 t2 :
  Idle w → 0 < d →
  getCredits (storage w) sender = 0 →
  sender ≠ this →
  0 ≤ balanceOf (token w) this →
  transferFrom (lock (storage w)) this (token w) sender this d = Ok (true, t1) →
  quiet this sender (CDeposit d) w →
  let w1 := deposited this sender d t1 w in
  transfer (debited sender (d * CREDIT_RATE) (storage w1)) this (token w1) sender
    (d * CREDIT_RATE / CREDIT_RATE) = Ok (true, t2) →
  quiet this sender (CWithdraw (d * CREDIT_RATE)) w1 →
  let w2 := snd (execute this sender (CWithdraw (d * CREDIT_RATE))
                   (snd (execute this sender (CDeposit d) w))) in
  getCredits (storage w2) sender = 0 ∧
  balanceOf (token w2) this = balanceOf (token w) this ∧
  balanceOf (token w2) sender = balanceOf (token w) sender ∧
  (d * CREDIT_RATE ≤ MAX_UINT256 →
     execute this sender (CDeposit d) w = (Ok tt, w1) ∧
     execute this sender (CWithdraw (d * CREDIT_RATE)) w1
       = (Ok tt, withdrawn this sender (d * CREDIT_RATE) t2 w1) ∧
     getCredits (storage w1) sender = d * 100) ∧
  (MAX_UINT256 < d * CREDIT_RATE →
     execute this sender (CDeposit d) w = (Revert (Panic ARITHMETIC_OVERFLOW), w) ∧
     execute this sender (CWithdraw (d * CREDIT_RATE)) w
       = (Revert (Error InsufficientCredits), w)).
Proof.
  intros Hi Hd Hzero Hne Hres Hin Hq1 w1 Hout Hq2 w2.
  assert (Hs : _status (storage w) ≠ _ENTERED) by (rewrite Hi; discriminate).
  assert (Hm : deposit_returned this sender d t1 w
               = mkWorld (lock (storage w)) t1 (logs w)
                   (calls w ++ [CallTransferFrom sender this d (lock (storage w))]))
    by (by apply deposit_returned_storage).
  assert (Hmbal : getCredits (storage (deposit_returned this sender d t1 w)) sender = 0).
  { rewrite Hm. cbn [storage]. by tidy. }
  destruct (decide (d * CREDIT_RATE ≤ MAX_UINT256)) as [Hfit | Hover].
  - assert (Hx1 : execute this sender (CDeposit d) w = (Ok tt, w1)).
    { apply deposit_succeeds; try done. rewrite Hmbal. lia. }
    assert (Hc1 : getCredits (storage w1) sender = d * 100).
    { unfold w1, deposited. cbn [storage]. rewrite Hmbal. tidy. unfold CREDIT_RATE. lia. }
    assert (Ht1 : token w1 = t1).
    { unfold w1, deposited. cbn [token]. by rewrite Hm. }
    pose proof (transferFrom_moves _ _ _ _ _ _ _ Hin) as Hm1.
    pose proof (transfer_moves _ _ _ _ _ _ Hout) as Hm2. rewrite Ht1 in Hm2.
    assert (Hqd : d * CREDIT_RATE / CREDIT_RATE = d) by (apply Z.div_mul; discriminate).
    assert (Hx2 : execute this sender (CWithdraw (d * CREDIT_RATE)) w1
                  = (Ok tt, withdrawn this sender (d * CREDIT_RATE) t2 w1)).
    { apply withdraw_succeeds; [|exact Hout].
      unfold withdraw_checks_pass. rewrite Hc1, Hqd, Ht1. split; [reflexivity|].
      rewrite (Hm1 this). repeat case_decide; try congruence; unfold CREDIT_RATE; lia. }
    assert (Hw2 : w2 = withdrawn this sender (d * CREDIT_RATE) t2 w1).
    { unfold w2. rewrite Hx1. cbn [snd]. by rewrite Hx2. }
    assert (Ht2 : token w2 = t2).
    { rewrite Hw2. unfold withdrawn, withdraw_returned. cbn [token]. by rewrite reenter_token. }
    split; [|split; [|split; [|split]]].
    + rewrite Hw2. unfold withdrawn. rewrite withdraw_returned_storage by exact Hq2.
      cbn [storage]. unfold debited. tidy. rewrite Hc1. unfold CREDIT_RATE. lia.
    + rewrite Ht2, (Hm2 this), (Hm1 this), Hqd.
      repeat case_decide; try congruence; lia.
    + rewrite Ht2, (Hm2 sender), (Hm1 sender), Hqd.
      repeat case_decide; try congruence; lia.
    + done.
    + intros ?. lia.
  - assert (Hx1 : execute this sender (CDeposit d) w
                  = (Revert (Panic ARITHMETIC_OVERFLOW), w)).
    { apply (deposit_overflows this w sender d t1); try done. left. lia. }
    assert (Hx2 : execute this sender (CWithdraw (d * CREDIT_RATE)) w
                  = (Revert (Error InsufficientCredits), w)).
    { clear -Hi Hd Hzero. run. repeat step; try absurd_path; tidy; absurd_path. }
    assert (Hw2 : w2 = w) by (unfold w2; rewrite Hx1; cbn [snd]; by rewrite Hx2).
    rewrite Hw2. split; [exact Hzero|]. split; [done|]. split; [done|].
    split; [intros ?; lia | done].
Qed.

(** C6, as the code has it.  [nonReentrant] wraps the whole body, so the
    guard is tested before any argument or balance is looked at: while
    the guard is locked, [deposit], [spendCredits] and [withdraw] fail with
    "ReentrancyGuard: reentrant call" whatever their argument, and nothing
    is written; [deposit(0)] fails with the amount message only when the
    guard is idle. *)
Theorem guard_precedes_validation (w : World T) sender c :
  guarded c = true →
  (_status (storage w) = _ENTERED →
     dispatch this sender c w = (Revert (Error ReentrancyDetected), w) ∧
     execute this sender c w = (Revert (Error ReentrancyDetected), w)) ∧
  (Idle w →
     execute this sender (CDeposit 0) w = (Revert (Error InvalidAmount), w)).
Proof.
  intros Hg. split.
  - intros Hs. pose proof (guarded_reentry_reverts this w sender c Hg Hs) as Hd.
    split; [exact Hd|]. unfold execute, transact. by rewrite Hd.
  - intros Hi. run. repeat step; try absurd_path; tidy; absurd_path.
Qed.

(** C7.  Every call keeps every balance a [uint256], so none is ever
    negative, after one call and after any history of calls; a
    [spendCredits] or [withdraw] for more than the caller holds fails with
    "Insufficient credits" and writes nothing: the subtraction is never
    reached with a larger subtrahend. *)
Theorem balances_never_negative (w : World T) sender c :
  wf_storage (storage w) →
  wf_storage (storage (snd (execute this sender c w))) ∧
  (∀ a, 0 ≤ getCredits (storage (snd (execute this sender c w))) a) ∧
  (∀ cs a, 0 ≤ getCredits (storage (execute_all this cs w)) a) ∧
  (∀ amount,
     c = CSpendCredits amount ∨ c = CWithdraw amount →
     Idle w →
     getCredits (storage w) sender < amount →
     execute this sender c w = (Revert (Error InsufficientCredits), w)).
Proof.
  intros Hwf.
  pose proof (execute_keeps_wf this w sender c Hwf) as Hpost.
  split; [exact Hpost|]. split; [intros a; apply Hpost|].
  split; [intros cs a; by apply (execute_all_keeps_wf this cs w Hwf a)|].
  intros amount Hc Hi Hlt. pose proof (Hwf sender) as Hs.
  destruct Hc as [-> | ->]; run; repeat step; try absurd_path; tidy; absurd_path.
Qed.

(** C8, as the code has it.  [awardWinnings] from anyone but the owner
    fails with "Ownable: caller is not the owner" and writes nothing.
    From the owner, for a player other than the zero address and an
    amount above zero: when the player's balance plus the amount is a
    [uint256], the balance grows by exactly the amount and
    [WinningsAwarded] is emitted; when it is not, the addition panics and
    nothing is written. *)
Theorem awardWinnings_owner_only (w : World T) sender player amount :
  (sender ≠ _owner (storage w) →
     execute this sender (CAwardWinnings player amount) w
     = (Revert (Error AccessDenied), w)) ∧
  (sender = _owner (storage w) → player ≠ 0%N → 0 < amount →
     getCredits (storage w) player + amount ≤ MAX_UINT256 →
     ∃ w', execute this sender (CAwardWinnings player amount) w = (Ok tt, w') ∧
           getCredits (storage w') player = getCredits (storage w) player + amount ∧
           logs w' = logs w ++ [WinningsAwarded player amount]) ∧
  (sender = _owner (storage w) → player ≠ 0%N → 0 < amount →
     MAX_UINT256 < getCredits (storage w) player + amount →
     execute this sender (CAwardWinnings player amount) w
     = (Revert (Panic ARITHMETIC_OVERFLOW), w)).
Proof.
  split; [|split].
  - intros Hno. run. repeat step; try absurd_path.
  - intros Ho Hp Ha Hfit. run. repeat step; try absurd_path.
    eexists. split; [reflexivity|]. cbn [storage logs]. by tidy.
  - intros Ho Hp Ha Hover. run. repeat step; try absurd_path.
Qed.

(** C9.  With the guard idle, a [withdraw] of fewer credits than the rate
    by a caller who holds them fails with "Resulting token amount too
    small"; the world is untouched, so the caller's balance and the
    ledger's holding of the asset are what they were. *)
Theorem withdraw_too_small (w : World T) sender creditAmount :
  Idle w →
  0 < creditAmount < CREDIT_RATE →
  creditAmount ≤ getCredits (storage w) sender →
  execute this sender (CWithdraw creditAmount) w = (Revert (Error TooSmall), w) ∧
  getCredits (storage (snd (execute this sender (CWithdraw creditAmount) w))) sender
    = getCredits (storage w) sender ∧
  balanceOf (token (snd (execute this sender (CWithdraw creditAmount) w))) this
    = balanceOf (token w) this.
Proof.
  intros Hi Hsmall Hbal.
  assert (Hx : execute this sender (CWithdraw creditAmount) w
               = (Revert (Error TooSmall), w)).
  { run. repeat step; try absurd_path; tidy; absurd_path. }
  by rewrite Hx.
Qed.

(** C10, as the code has it.  Frame.  No call writes the token
    reference, and the rate is the constant [CREDIT_RATE], which no
    storage write can reach.  A call writes one balance at most (the
    caller's for [deposit], [spendCredits] and [withdraw], the player's
    for [awardWinnings]) and leaves every other balance as it was, as
    long as the token, while [deposit] or [withdraw] waits for it, does
    not call the ledger as its owner; [spendCredits] and [awardWinnings]
    call nobody, so for them this always holds.  Whatever the token does,
    another account's balance cannot come out lower. *)
Theorem calls_frame (w : World T) sender c b :
  written_account sender c ≠ Some b →
  bullToken (storage (snd (execute this sender c w))) = bullToken (storage w) ∧
  CREDIT_RATE = 100 ∧
  (quiet this sender c w →
     getCredits (storage (snd (execute this sender c w))) b = getCredits (storage w) b) ∧
  ((∃ amount, c = CSpendCredits amount) ∨ (∃ player amount, c = CAwardWinnings player amount) →
     getCredits (storage (snd (execute this sender c w))) b = getCredits (storage w) b) ∧
  getCredits (storage w) b ≤ getCredits (storage (snd (execute this sender c w))) b.
Proof.
  intros Hb. split; [apply execute_bullToken|]. split; [reflexivity|].
  split; [intros Hq; by apply execute_frame|]. split.
  - intros Hc. apply execute_frame; [exact Hb|].
    destruct Hc as [[n ->] | (p & n & ->)]; by constructor.
  - destruct (execute_cases this w sender c) as [[f ->] | Hok]; [done|].
    rewrite Hok. destruct c as [n|n|p n|n|o]; simpl in Hb.
    + apply deposit_inv in Hok as (_ & _ & _ & _ & _ & Hw').
      cbn [snd] in *. rewrite Hw'. unfold deposited. cbn [storage]. tidy.
      rewrite getCredits_set_ne by congruence. unfold deposit_returned.
      apply (reenter_mono _ (mkWorld (set_status _ENTERED (storage w)) _ _ _)).
    + clear Hok. run; repeat step; tidy; rewrite ?getCredits_set_ne by congruence; done.
    + clear Hok. run; repeat step; tidy; rewrite ?getCredits_set_ne by congruence; done.
    + apply withdraw_inv in Hok as (_ & _ & _ & _ & _ & _ & Hw').
      cbn [snd] in *. rewrite Hw'. unfold withdrawn. cbn [storage]. tidy.
      unfold withdraw_returned.
      etrans; [|apply (reenter_mono _ (mkWorld (debited sender n (storage w)) _ _ _))].
      cbn [storage]. unfold debited. tidy. by rewrite getCredits_set_ne by congruence.
    + clear Hok. run; repeat step; done.
Qed.

End Claims.

(** ** Storage well-formedness of the example deployments *)

Example constructor_deploys :
  constructor operator bull = Ok (deployed ∅ _NOT_ENTERED).
Proof. reflexivity. Qed.

Example constructor_rejects_zero_token :
  constructor operator 0%N = Revert (Error "Token address cannot be zero").
Proof. reflexivity. Qed.

Lemma wf_storage_deployed_empty status : wf_storage (deployed ∅ status).
Proof.
  intros a. unfold getCredits, deployed; simpl. rewrite lookup_empty. simpl.
  unfold is_uint256, MAX_UINT256. lia.
Qed.

Lemma wf_storage_deployed_singleton user v status :
  is_uint256 v → wf_storage (deployed {[ user := v ]} status).
Proof.
  intros Hv a. unfold getCredits, deployed; simpl.
  destruct (decide (a = user)) as [->|Hne].
  - by rewrite lookup_singleton_eq.
  - rewrite lookup_singleton_ne by done. simpl. unfold is_uint256, MAX_UINT256. lia.
Qed.

(** The OpenZeppelin token calls nobody while it moves funds. *)
Global Instance ERC20_Outsider : Outsider ERC20.
Proof. split; intros; constructor. Qed.

(** ** The properties at concrete deployments *)

Ltac evaluated := vm_compute; first [reflexivity | discriminate | done | by constructor].

(** C1 at a withdrawal of 250 credits: 2 units are paid and 50 credits
    are forfeited. *)
Lemma withdraw_debits_full_amount_witness :
  let w := world {[ alice := 250 ]} _NOT_ENTERED (funded 10) in
  let w' := snd (execute arcade alice (CWithdraw 250) w) in
  (0 < 250 ∧ 250 ≤ getCredits (storage w) alice ∧
   execute arcade alice (CWithdraw 250) w = (Ok tt, w') ∧
   quiet arcade alice (CWithdraw 250) w) ∧
  transfer (debited alice 250 (storage w)) arcade (token w) alice (250 / CREDIT_RATE)
    = Ok (true, token w') ∧
  getCredits (debited alice 250 (storage w)) alice = getCredits (storage w) alice - 250 ∧
  getCredits (storage w') alice = getCredits (storage w) alice - 250 ∧
  moved (token w) (token w') arcade alice (250 / CREDIT_RATE) ∧
  getCredits (storage w) alice - getCredits (debited alice 250 (storage w)) alice
    = 250 / CREDIT_RATE * CREDIT_RATE + 250 `mod` CREDIT_RATE ∧
  logs w' = logs w ++ [Withdrawal alice 250 (250 / CREDIT_RATE)].
Proof.
  intros w w'.
  assert (H1 : 0 < 250) by lia.
  assert (H2 : 250 ≤ getCredits (storage w) alice) by evaluated.
  assert (H3 : execute arcade alice (CWithdraw 250) w = (Ok tt, w')) by evaluated.
  assert (H4 : quiet arcade alice (CWithdraw 250) w) by constructor.
  split; [done|].
  destruct (withdraw_debits_full_amount arcade w w' alice 250 H1 H2 H3)
    as (Hd & Hc & _ & _ & _ & _ & Hm & Hf & _ & Hq).
  destruct (Hq H4) as [Hb Hl].
  done.
Defined.

(** C2 at a token that answers [false]: alice keeps her 250 credits. *)
Lemma withdraw_transfer_failure_rolls_back_witness :
  let w := world {[ alice := 250 ]} _NOT_ENTERED Frozen in
  (withdraw_checks_pass arcade alice 250 w ∧
   transfer (debited alice 250 (storage w)) arcade (token w) alice
     (250 / CREDIT_RATE) = Ok (false, Frozen) ∧
   quiet arcade alice (CWithdraw 250) w) ∧
  fst (withdraw arcade alice 250 w) = Revert (Error TransferFailed) ∧
  getCredits (storage (snd (withdraw arcade alice 250 w))) alice
    = getCredits (storage w) alice - 250 ∧
  execute arcade alice (CWithdraw 250) w = (Revert (Error TransferFailed), w).
Proof.
  intros w.
  assert (H1 : withdraw_checks_pass arcade alice 250 w) by (repeat split; evaluated).
  assert (H2 : transfer (debited alice 250 (storage w)) arcade (token w) alice
                 (250 / CREDIT_RATE) = Ok (false, Frozen)) by reflexivity.
  assert (H3 : quiet arcade alice (CWithdraw 250) w) by constructor.
  split; [done|].
  destruct (withdraw_transfer_failure_rolls_back arcade w alice 250 Frozen H1 H2)
    as (Hf & _ & _ & _ & Hq & Hx & _).
  split; [exact Hf|]. split; [exact (Hq H3) | exact Hx].
Defined.

(** C3 at a token that reads the ledger while it transfers: of alice's
    500 credits it finds 250 left. *)
Lemma withdraw_debit_precedes_transfer_witness :
  let w := world {[ alice := 500 ]} _NOT_ENTERED (mkSpy None) in
  withdraw_checks_pass arcade alice 250 w ∧
  withdraw arcade alice 250 w
    = (Ok tt, withdrawn arcade alice 250 (mkSpy (Some 250)) w) ∧
  In (CallTransfer alice 2 (debited alice 250 (storage w)))
     (calls (snd (withdraw arcade alice 250 w))) ∧
  getCredits (debited alice 250 (storage w)) alice = 250.
Proof.
  intros w.
  assert (H1 : withdraw_checks_pass arcade alice 250 w) by (repeat split; evaluated).
  split; [done|].
  destruct (withdraw_debit_precedes_transfer arcade w alice 250)
    as (Hfirst & new & Hcalls & _ & Hnew).
  destruct (Hfirst H1) as (_ & _ & Heq).
  split; [rewrite Heq; reflexivity|].
  rewrite Hcalls, (Hnew H1). split; [|reflexivity].
  right. left. reflexivity.
Defined.

Example spy_reads_debited_balance :
  spy_read (token (snd (execute arcade alice (CWithdraw 250)
                          (world {[ alice := 500 ]} _NOT_ENTERED (mkSpy None)))))
  = Some 250.
Proof. reflexivity. Qed.

(** C4 as the specification words it fails: alice holds [2^255] units,
    has approved the ledger for them and deposits them all.  The token's
    [transferFrom] returns [true]; the credits for the amount are not a
    [uint256], the multiplication panics, and alice's balance has not
    grown. *)
Lemma deposit_beyond_the_range :
  let t := _approve alice arcade (2 ^ 255) (MockBullToken alice (2 ^ 255)) in
  let w := world ∅ _NOT_ENTERED t in
  0 < 2 ^ 255 ∧ is_uint256 (2 ^ 255) ∧
  (∃ t', transferFrom (lock (storage w)) arcade (token w) alice arcade (2 ^ 255)
         = Ok (true, t')) ∧
  execute arcade alice (CDeposit (2 ^ 255)) w = (Revert (Panic ARITHMETIC_OVERFLOW), w) ∧
  getCredits (storage (snd (execute arcade alice (CDeposit (2 ^ 255)) w))) alice
    ≠ getCredits (storage w) alice + 2 ^ 255 * 100.
Proof.
  intros t w. split; [done|]. split; [by vm_compute|].
  split; [eexists; vm_compute; reflexivity|].
  split; evaluated.
Qed.

(** C4 at a deposit of 5 units: 500 credits. *)
Lemma deposit_credits_exactly_witness :
  let w := world ∅ _NOT_ENTERED (funded 0) in
  let w' := snd (execute arcade alice (CDeposit 5) w) in
  (Idle w ∧ 0 < 5 ∧ alice ≠ arcade ∧
   transferFrom (lock (storage w)) arcade (token w) alice arcade 5 = Ok (true, token w') ∧
   5 * CREDIT_RATE ≤ MAX_UINT256 ∧
   getCredits (storage (deposit_returned arcade alice 5 (token w') w)) alice
     + 5 * CREDIT_RATE ≤ MAX_UINT256 ∧
   quiet arcade alice (CDeposit 5) w) ∧
  execute arcade alice (CDeposit 5) w = (Ok tt, w') ∧
  getCredits (storage w') alice = getCredits (storage w) alice + 5 * 100 ∧
  balanceOf (token w') arcade = balanceOf (token w) arcade + 5 ∧
  logs w' = logs w ++ [Deposit alice 5 (5 * 100)].
Proof.
  intros w w'.
  assert (H0 : Idle w) by reflexivity.
  assert (H1 : 0 < 5) by lia.
  assert (H2 : alice ≠ arcade) by discriminate.
  assert (H3 : transferFrom (lock (storage w)) arcade (token w) alice arcade 5
               = Ok (true, token w')) by evaluated.
  assert (H4 : 5 * CREDIT_RATE ≤ MAX_UINT256) by evaluated.
  assert (H5 : getCredits (storage (deposit_returned arcade alice 5 (token w') w)) alice
               + 5 * CREDIT_RATE ≤ MAX_UINT256) by evaluated.
  assert (H6 : quiet arcade alice (CDeposit 5) w) by constructor.
  split; [done|].
  destruct (deposit_credits_exactly arcade w alice 5 (token w') H0 H1 H2 H3) as [Hfits _].
  destruct (Hfits H4 H5) as (Hx & _ & _ & Hb & _ & Hq).
  destruct (Hq H6) as [Hc Hl].
  split; [rewrite Hx; evaluated|]. split; [|split].
  - rewrite <- Hc. evaluated.
  - rewrite <- Hb. evaluated.
  - rewrite <- Hl. evaluated.
Defined.

(** C5 as the specification words it fails: the ledger's owner is the
    token, which awards alice 7 credits each time it moves funds.  From a
    zero balance alice deposits 5 units and withdraws 500 credits; both
    transfers return [true], both calls commit, and she is left with 14
    credits. *)
Lemma round_trip_with_the_token_as_owner :
  let w := handed_over ∅ (mkInsider (funded 0) alice 7) in
  let w1 := snd (execute arcade alice (CDeposit 5) w) in
  let w2 := snd (execute arcade alice (CWithdraw (5 * 100)) w1) in
  getCredits (storage w) alice = 0 ∧ 0 < 5 ∧
  (∃ t1, transferFrom (lock (storage w)) arcade (token w) alice arcade 5 = Ok (true, t1)) ∧
  fst (execute arcade alice (CDeposit 5) w) = Ok tt ∧
  (∃ t2, transfer (debited alice (5 * 100) (storage w1)) arcade (token w1) alice 5
         = Ok (true, t2)) ∧
  fst (execute arcade alice (CWithdraw (5 * 100)) w1) = Ok tt ∧
  getCredits (storage w2) alice = 14 ∧
  getCredits (storage w2) alice ≠ 0.
Proof.
  intros w w1 w2. split; [reflexivity|]. split; [lia|].
  split; [eexists; vm_compute; reflexivity|]. split; [evaluated|].
  split; [eexists; vm_compute; reflexivity|]. split; [evaluated|].
  split; evaluated.
Qed.

(** C5 at a deposit of 5 units followed by a withdrawal of 500 credits. *)
Lemma deposit_withdraw_round_trip_witness :
  let w := world ∅ _NOT_ENTERED (funded 0) in
  let t1 := token (snd (execute arcade alice (CDeposit 5) w)) in
  let w1 := deposited arcade alice 5 t1 w in
  let t2 := token (snd (execute arcade alice (CWithdraw 500)
                          (snd (execute arcade alice (CDeposit 5) w)))) in
  let w2 := snd (execute arcade alice (CWithdraw (5 * CREDIT_RATE))
                   (snd (execute arcade alice (CDeposit 5) w))) in
  (Idle w ∧ 0 < 5 ∧
   getCredits (storage w) alice = 0 ∧ alice ≠ arcade ∧
   0 ≤ balanceOf (token w) arcade ∧
   transferFrom (lock (storage w)) arcade (token w) alice arcade 5 = Ok (true, t1) ∧
   quiet arcade alice (CDeposit 5) w ∧
   transfer (debited alice (5 * CREDIT_RATE) (storage w1)) arcade (token w1) alice
     (5 * CREDIT_RATE / CREDIT_RATE) = Ok (true, t2) ∧
   quiet arcade alice (CWithdraw (5 * CREDIT_RATE)) w1 ∧
   5 * CREDIT_RATE ≤ MAX_UINT256) ∧
  getCredits (storage w2) alice = 0 ∧
  balanceOf (token w2) arcade = balanceOf (token w) arcade ∧
  balanceOf (token w2) alice = balanceOf (token w) alice ∧
  execute arcade alice (CDeposit 5) w = (Ok tt, w1) ∧
  execute arcade alice (CWithdraw (5 * CREDIT_RATE)) w1
    = (Ok tt, withdrawn arcade alice (5 * CREDIT_RATE) t2 w1) ∧
  getCredits (storage w1) alice = 5 * 100.
Proof.
  intros w t1 w1 t2 w2.
  assert (H1 : Idle w) by reflexivity.
  assert (H2 : 0 < 5) by lia.
  assert (H4 : getCredits (storage w) alice = 0) by reflexivity.
  assert (H5 : alice ≠ arcade) by discriminate.
  assert (H6 : 0 ≤ balanceOf (token w) arcade) by evaluated.
  assert (H7 : transferFrom (lock (storage w)) arcade (token w) alice arcade 5
               = Ok (true, t1)) by evaluated.
  assert (H8 : quiet arcade alice (CDeposit 5) w) by constructor.
  assert (H9 : transfer (debited alice (5 * CREDIT_RATE) (storage w1)) arcade (token w1)
                 alice (5 * CREDIT_RATE / CREDIT_RATE) = Ok (true, t2)) by evaluated.
  assert (H10 : quiet arcade alice (CWithdraw (5 * CREDIT_RATE)) w1) by constructor.
  assert (H3 : 5 * CREDIT_RATE ≤ MAX_UINT256) by evaluated.
  split; [done|].
  destruct (deposit_withdraw_round_trip arcade w alice 5 t1 t2 H1 H2 H4 H5 H6 H7 H8 H9 H10)
    as (Hz & Hb & Ha & Hfit & _).
  destruct (Hfit H3) as (Hx1 & Hx2 & Hc).
  done.
Defined.

(** C6 as the specification words it fails: with the guard locked,
    [deposit(0)] reports the reentrancy, not the amount. *)
Lemma deposit_zero_while_locked :
  let w := world ∅ _ENTERED (funded 0) in
  fst (execute arcade alice (CDeposit 0) w) = Revert (Error ReentrancyDetected) ∧
  fst (execute arcade alice (CDeposit 0) w) ≠ Revert (Error InvalidAmount).
Proof. split; [reflexivity | discriminate]. Qed.

Lemma guard_precedes_validation_witness :
  let w := world {[ alice := 250 ]} _ENTERED (funded 10) in
  (guarded (CWithdraw 0) = true ∧ _status (storage w) = _ENTERED) ∧
  dispatch arcade alice (CWithdraw 0) w = (Revert (Error ReentrancyDetected), w) ∧
  execute arcade alice (CWithdraw 0) w = (Revert (Error ReentrancyDetected), w).
Proof.
  intros w.
  assert (H1 : guarded (CWithdraw 0) = true) by reflexivity.
  assert (H2 : _status (storage w) = _ENTERED) by reflexivity.
  split; [done|].
  exact (proj1 (guard_precedes_validation arcade w alice (CWithdraw 0) H1) H2).
Defined.

(** C7 at an overdraft: alice holds 250 credits and asks for 251. *)
Lemma balances_never_negative_witness :
  let w := world {[ alice := 250 ]} _NOT_ENTERED (funded 10) in
  wf_storage (storage w) ∧
  wf_storage (storage (snd (execute arcade alice (CSpendCredits 251) w))) ∧
  execute arcade alice (CSpendCredits 251) w = (Revert (Error InsufficientCredits), w).
Proof.
  intros w.
  assert (H1 : wf_storage (storage w)).
  { apply wf_storage_deployed_singleton. unfold is_uint256, MAX_UINT256. lia. }
  split; [done|].
  destruct (balances_never_negative arcade w alice (CSpendCredits 251) H1)
    as (Hwf & _ & _ & Hover).
  split; [exact Hwf|].
  apply (Hover 251); [by left | reflexivity | evaluated].
Defined.

(** C8 as the specification words it fails: bob holds the largest
    [uint256] and the owner awards him one credit more. *)
Lemma awardWinnings_at_the_top_of_the_range :
  let w := world {[ bob := MAX_UINT256 ]} _NOT_ENTERED (funded 10) in
  operator = _owner (storage w) ∧ bob ≠ 0%N ∧ 0 < 1 ∧
  execute arcade operator (CAwardWinnings bob 1) w
    = (Revert (Panic ARITHMETIC_OVERFLOW), w) ∧
  getCredits (storage (snd (execute arcade operator (CAwardWinnings bob 1) w))) bob
    ≠ getCredits (storage w) bob + 1.
Proof.
  intros w. split; [reflexivity|]. split; [discriminate|]. split; [lia|].
  split; [reflexivity | evaluated].
Qed.

Lemma awardWinnings_owner_only_witness :
  let w := world {[ bob := 40 ]} _NOT_ENTERED (funded 10) in
  (alice ≠ _owner (storage w) ∧ operator = _owner (storage w) ∧ bob ≠ 0%N ∧
   0 < 500 ∧ getCredits (storage w) bob + 500 ≤ MAX_UINT256) ∧
  execute arcade alice (CAwardWinnings bob 500) w = (Revert (Error AccessDenied), w) ∧
  ∃ w', execute arcade operator (CAwardWinnings bob 500) w = (Ok tt, w') ∧
        getCredits (storage w') bob = getCredits (storage w) bob + 500 ∧
        logs w' = logs w ++ [WinningsAwarded bob 500].
Proof.
  intros w.
  assert (H1 : alice ≠ _owner (storage w)) by discriminate.
  assert (H2 : operator = _owner (storage w)) by reflexivity.
  assert (H3 : bob ≠ 0%N) by discriminate.
  assert (H4 : 0 < 500) by lia.
  assert (H5 : getCredits (storage w) bob + 500 ≤ MAX_UINT256) by evaluated.
  split; [done|]. split.
  - exact (proj1 (awardWinnings_owner_only arcade w alice bob 500) H1).
  - exact (proj1 (proj2 (awardWinnings_owner_only arcade w operator bob 500)) H2 H3 H4 H5).
Defined.

(** C9 at [withdraw(50)]. *)
Lemma withdraw_too_small_witness :
  let w := world {[ alice := 250 ]} _NOT_ENTERED (funded 10) in
  (Idle w ∧ 0 < 50 < CREDIT_RATE ∧ 50 ≤ getCredits (storage w) alice) ∧
  execute arcade alice (CWithdraw 50) w = (Revert (Error TooSmall), w) ∧
  getCredits (storage (snd (execute arcade alice (CWithdraw 50) w))) alice
    = getCredits (storage w) alice ∧
  balanceOf (token (snd (execute arcade alice (CWithdraw 50) w))) arcade
    = balanceOf (token w) arcade.
Proof.
  intros w.
  assert (H1 : Idle w) by reflexivity.
  assert (H2 : 0 < 50 < CREDIT_RATE) by (unfold CREDIT_RATE; lia).
  assert (H3 : 50 ≤ getCredits (storage w) alice) by evaluated.
  split; [done|].
  exact (withdraw_too_small arcade w alice 50 H1 H2 H3).
Defined.

(** C10 as the specification words it fails: the ledger's owner is the
    token, which awards bob 1000 credits each time it moves funds.  Alice
    withdraws 250 credits; the call commits, and bob, who is not the
    caller, holds 1000 credits more than before. *)
Lemma withdraw_credits_a_bystander :
  let w := handed_over {[ alice := 250 ]} (mkInsider (funded 10) bob 1000) in
  let w' := snd (execute arcade alice (CWithdraw 250) w) in
  bob ≠ alice ∧
  fst (execute arcade alice (CWithdraw 250) w) = Ok tt ∧
  getCredits (storage w) bob = 0 ∧
  getCredits (storage w') bob = 1000 ∧
  getCredits (storage w') bob ≠ getCredits (storage w) bob.
Proof.
  intros w w'. split; [discriminate|]. split; [evaluated|].
  split; [reflexivity|]. split; evaluated.
Qed.

(** C10 at a deposit by alice, seen from bob's balance. *)
Lemma calls_frame_witness :
  let w := world {[ bob := 40 ]} _NOT_ENTERED (funded 0) in
  (written_account alice (CDeposit 5) ≠ Some bob ∧ quiet arcade alice (CDeposit 5) w) ∧
  getCredits (storage (snd (execute arcade alice (CDeposit 5) w))) bob
    = getCredits (storage w) bob ∧
  bullToken (storage (snd (execute arcade alice (CDeposit 5) w))) = bullToken (storage w) ∧
  CREDIT_RATE = 100.
Proof.
  intros w.
  assert (H1 : written_account alice (CDeposit 5) ≠ Some bob) by discriminate.
  assert (H2 : quiet arcade alice (CDeposit 5) w) by constructor.
  split; [done|].
  destruct (calls_frame arcade w alice (CDeposit 5) bob H1) as (Ht & Hr & Hq & _).
  split; [exact (Hq H2)|]. split; [exact Ht | exact Hr].
Defined.

(** ** The sum of the balances *)

Lemma total_credits_set user v s :
  total_credits (set_userCredits user v s) = total_credits s - getCredits s user + v.
Proof.
  unfold total_credits, getCredits, set_userCredits; simpl.
  destruct (userCredits s !! user) as [x|] eqn:E; simpl.
  - rewrite (map_fold_delete_L _ 0 user x (userCredits s)); [|intros; lia|done].
    rewrite <- insert_delete_eq.
    rewrite map_fold_insert_L; [lia|intros; lia|by rewrite lookup_delete_eq].
  - rewrite map_fold_insert_L; [lia|intros; lia|done].
Qed.

Lemma total_credits_set_status v s : total_credits (set_status v s) = total_credits s.
Proof. reflexivity. Qed.

Lemma total_credits_set_owner o s : total_credits (set_owner o s) = total_credits s.
Proof. reflexivity. Qed.

Lemma total_credits_nonneg_map (m : gmap address Z) :
  (∀ a x, m !! a = Some x → 0 ≤ x) →
  0 ≤ map_fold (λ _ v acc, v + acc) 0 m.
Proof.
  induction m as [|i x m Hi IH] using map_ind; intros Hpos.
  - by rewrite map_fold_empty.
  - rewrite map_fold_insert_L; [|intros; lia|done].
    assert (0 ≤ x) by (apply (Hpos i); by rewrite lookup_insert_eq).
    assert (0 ≤ map_fold (λ _ v acc, v + acc) 0 m).
    { apply IH. intros a y Ha. apply (Hpos a).
      rewrite lookup_insert_ne; [done|]. intros ->. congruence. }
    lia.
Qed.

Lemma getCredits_le_total s a :
  wf_storage s → getCredits s a ≤ total_credits s.
Proof.
  intros Hwf.
  assert (Hpos : ∀ b x, userCredits s !! b = Some x → 0 ≤ x).
  { intros b x Hb. pose proof (Hwf b) as Hr. unfold getCredits in Hr.
    rewrite Hb in Hr. apply Hr. }
  unfold total_credits, getCredits.
  destruct (userCredits s !! a) as [x|] eqn:E; simpl.
  - rewrite (map_fold_delete_L _ 0 a x (userCredits s)); [|intros; lia|done].
    assert (0 ≤ map_fold (λ _ v acc, v + acc) 0 (delete a (userCredits s))).
    { apply total_credits_nonneg_map. intros b y Hb.
      apply lookup_delete_Some in Hb as [_ Hb]. by apply (Hpos b). }
    lia.
  - by apply total_credits_nonneg_map.
Qed.

(** ** More of the contract's behaviour *)

Section Behaviour.

Context {T : Type} `{IERC20 T} `{!ERC20Laws T}.
Variable this : address.

(** What the callee's calls log are awards and changes of owner. *)
Lemma reenter_logs_callee cs (w : World T) :
  ∃ more, logs (reenter cs w) = logs w ++ more ∧ Forall (λ e, from_callee e = true) more.
Proof.
  apply (reenter_ind (λ w', ∃ more, logs w' = logs w ++ more
                                    ∧ Forall (λ e, from_callee e = true) more)).
  - exists []. by rewrite app_nil_r.
  - intros w' sender c (more & Hw' & Hm).
    destruct (reentrant_step w' sender c) as [-> | [_ [(p & n & _ & _ & _ & ->) | (o & _ & ->)]]];
      [by exists more | |]; cbn [logs]; rewrite Hw', <- app_assoc;
      (eexists; split; [reflexivity|]); apply Forall_app; split; try done;
      by repeat constructor.
Qed.

(** X1.  [spendCredits] of a positive amount the caller holds, entered
    with the guard idle, commits: the caller's balance drops by exactly
    the amount, [CreditsSpent] is emitted, and neither the token nor the
    record of external calls is touched: spent credits move no asset. *)
Theorem spendCredits_spends (w : World T) sender amount :
  Idle w → 0 < amount → amount ≤ getCredits (storage w) sender →
  ∃ w',
    execute this sender (CSpendCredits amount) w = (Ok tt, w') ∧
    getCredits (storage w') sender = getCredits (storage w) sender - amount ∧
    logs w' = logs w ++ [CreditsSpent sender amount] ∧
    token w' = token w ∧ calls w' = calls w ∧ Idle w'.
Proof.
  intros Hi Hpos Hbal. run. repeat step; try absurd_path; tidy; try absurd_path.
  eexists. split; [reflexivity|]. cbn [storage logs token calls]. by tidy.
Qed.

(** X2.  With the guard not locked, [deposit], [spendCredits] and
    [withdraw] of a zero amount fail with "Amount must be greater than
    zero" before anything else is looked at: whatever the caller's
    balance, the reserve or the token, and the token is not called. *)
Theorem zero_amount_rejected (w : World T) sender c :
  _status (storage w) ≠ _ENTERED →
  c = CDeposit 0 ∨ c = CSpendCredits 0 ∨ c = CWithdraw 0 →
  execute this sender c w = (Revert (Error InvalidAmount), w) ∧
  calls (snd (dispatch this sender c w)) = calls w.
Proof.
  intros Hs [-> | [-> | ->]]; run; repeat step; try absurd_path; done.
Qed.

(** X3.  A [deposit] whose [transferFrom] returns [false] fails with
    "Token transfer failed", and one whose [transferFrom] reverts fails
    with the token's own failure; either way no credits are granted and
    the world is what it was. *)
Theorem deposit_transfer_failure (w : World T) sender bullAmount :
  _status (storage w) ≠ _ENTERED → 0 < bullAmount →
  (∀ t', transferFrom (lock (storage w)) this (token w) sender this bullAmount
         = Ok (false, t') →
         execute this sender (CDeposit bullAmount) w
         = (Revert (Error TransferFailed), w)) ∧
  (∀ f, transferFrom (lock (storage w)) this (token w) sender this bullAmount
        = Revert f →
        execute this sender (CDeposit bullAmount) w = (Revert f, w)).
Proof.
  intros Hs Hpos.
  split; intros ? Hcall; unfold execute, transact, dispatch;
    by rewrite (deposit_reaches_transferFrom this w sender bullAmount Hs Hpos), Hcall.
Qed.

(** X4.  A [deposit] of more units than a hundredth of the largest
    [uint256] never commits, whatever the token answers: the credits it
    would stand for do not fit, so the world is what it was. *)
Theorem deposit_beyond_range_never_commits (w : World T) sender bullAmount :
  MAX_UINT256 < bullAmount * CREDIT_RATE →
  (∃ f, execute this sender (CDeposit bullAmount) w = (Revert f, w)) ∧
  (_status (storage w) ≠ _ENTERED →
   ∀ t', transferFrom (lock (storage w)) this (token w) sender this bullAmount
         = Ok (true, t') →
         execute this sender (CDeposit bullAmount) w
         = (Revert (Panic ARITHMETIC_OVERFLOW), w)).
Proof.
  intros Hbig. split.
  - destruct (execute_cases this w sender (CDeposit bullAmount)) as [Hf | Hok]; [done|].
    exfalso. apply deposit_inv in Hok as (_ & _ & _ & Hmul & _). lia.
  - intros Hs t' Hcall.
    assert (0 < MAX_UINT256) by (unfold MAX_UINT256; lia).
    apply (deposit_overflows this w sender bullAmount t'); try done.
    + unfold CREDIT_RATE in *. lia.
    + by left.
Qed.

(** X5.  A [withdraw] that passes the amount and balance checks but asks
    for more units than the ledger holds fails with "Insufficient
    contract balance" before the balance is debited and before the
    token's [transfer] is called; the world is what it was. *)
Theorem withdraw_insufficient_reserve (w : World T) sender creditAmount :
  _status (storage w) ≠ _ENTERED →
  CREDIT_RATE ≤ creditAmount → creditAmount ≤ getCredits (storage w) sender →
  balanceOf (token w) this < creditAmount / CREDIT_RATE →
  execute this sender (CWithdraw creditAmount) w
    = (Revert (Error InsufficientReserve), w) ∧
  getCredits (storage (snd (withdraw this sender creditAmount w))) sender
    = getCredits (storage w) sender ∧
  calls (snd (withdraw this sender creditAmount w))
    = calls w ++ [CallBalanceOf this (lock (storage w))].
Proof.
  intros Hs Hrate Hbal Hres. unfold lock.
  run. repeat step; try absurd_path; tidy; try absurd_path. done.
Qed.

(** X6.  [withdraw] commits exactly when the guard is not locked, the
    amount is at least the rate and at most the caller's balance, the
    ledger holds the units to pay, and the token's [transfer], called on
    the debited storage, returns [true]. *)
Theorem withdraw_commits_iff (w : World T) sender creditAmount :
  (∃ w', execute this sender (CWithdraw creditAmount) w = (Ok tt, w')) ↔
  _status (storage w) ≠ _ENTERED ∧
  CREDIT_RATE ≤ creditAmount ∧
  creditAmount ≤ getCredits (storage w) sender ∧
  creditAmount / CREDIT_RATE ≤ balanceOf (token w) this ∧
  ∃ t', transfer (debited sender creditAmount (storage w)) this (token w) sender
          (creditAmount / CREDIT_RATE) = Ok (true, t').
Proof.
  split.
  - intros [w' Hx].
    apply withdraw_inv in Hx as (Hs & Hpos & Hbal & Hq & Hres & Hcall & _).
    repeat split; try done; [arith | by eexists].
  - intros (Hs & Hrate & Hbal & Hres & t' & Hcall).
    assert (Hpos : 0 < creditAmount) by (unfold CREDIT_RATE in *; lia).
    assert (Hq : 0 < creditAmount / CREDIT_RATE) by arith.
    unfold execute, transact, dispatch.
    rewrite (withdraw_reaches_transfer this w sender creditAmount Hs Hpos Hbal Hq Hres), Hcall.
    by eexists.
Qed.

(** X7.  [deposit] commits exactly when the guard is not locked, the
    amount is positive, the token's [transferFrom] returns [true], and
    both the credits for the amount and the caller's new balance fit in a
    [uint256]; the balance they are added to is the one read when
    [transferFrom] has returned, which is the caller's balance before the
    call unless the callee added to it as the owner. *)
Theorem deposit_commits_iff (w : World T) sender bullAmount :
  ((∃ w', execute this sender (CDeposit bullAmount) w = (Ok tt, w')) ↔
   _status (storage w) ≠ _ENTERED ∧
   0 < bullAmount ∧
   ∃ t', transferFrom (lock (storage w)) this (token w) sender this bullAmount
           = Ok (true, t') ∧
         bullAmount * CREDIT_RATE ≤ MAX_UINT256 ∧
         getCredits (storage (deposit_returned this sender bullAmount t' w)) sender
           + bullAmount * CREDIT_RATE ≤ MAX_UINT256) ∧
  (∀ t', getCredits (storage w) sender
         ≤ getCredits (storage (deposit_returned this sender bullAmount t' w)) sender) ∧
  (quiet this sender (CDeposit bullAmount) w →
   ∀ t', getCredits (storage (deposit_returned this sender bullAmount t' w)) sender
         = getCredits (storage w) sender).
Proof.
  split; [split|split].
  - intros [w' Hx].
    apply deposit_inv in Hx as (Hs & Hpos & Hcall & Hmul & Hadd & _).
    split; [done|]. split; [done|]. by eexists.
  - intros (Hs & Hpos & t' & Hcall & Hmul & Hadd).
    unfold execute, transact, dispatch.
    rewrite (deposit_reaches_transferFrom this w sender bullAmount Hs Hpos), Hcall.
    cbv zeta. rewrite bool_decide_eq_true_2 by done. by eexists.
  - intros t'. unfold deposit_returned.
    apply (reenter_mono _ (mkWorld (lock (storage w)) t' (logs w) _)).
  - intros Hq t'. rewrite deposit_returned_storage by exact Hq. cbn [storage]. by tidy.
Qed.

(** X8.  [awardWinnings] from the owner: the zero address as player is
    refused with "Invalid player address" whatever the amount, and for a
    real player a zero amount is refused with "Amount must be greater
    than zero".  Nothing is written in either case. *)
Theorem awardWinnings_validation (w : World T) sender player amount :
  sender = _owner (storage w) →
  (player = 0%N →
     execute this sender (CAwardWinnings player amount) w
     = (Revert (Error InvalidAddress), w)) ∧
  (player ≠ 0%N → amount = 0 →
     execute this sender (CAwardWinnings player amount) w
     = (Revert (Error InvalidAmount), w)).
Proof.
  intros Ho.
  split; intros; run; repeat step; try absurd_path; tidy; absurd_path.
Qed.

(** X9.  A call that commits logs the event of its function with its
    arguments ([Deposit] with the credits granted, [Withdrawal] with the
    units paid) as the last one; before it come only the awards and
    changes of owner the callee made as the owner while [deposit] or
    [withdraw] waited for it, so when the token makes none the call
    appends exactly one event.  A call that fails appends none. *)
Theorem one_event_per_commit (w : World T) sender c :
  let (r, w') := execute this sender c w in
  match r with
  | Ok _ =>
      ∃ between,
        logs w' = logs w ++ between ++ [event_of sender c (storage w)] ∧
        Forall (λ e, from_callee e = true) between ∧
        (quiet this sender c w → between = [])
  | Revert _ => logs w' = logs w
  end.
Proof.
  destruct (execute_cases this w sender c) as [[f ->] | Hok]; [done|].
  rewrite Hok. destruct c as [n|n|p n|n|o].
  - apply deposit_inv in Hok as (_ & _ & _ & _ & _ & ->).
    unfold deposited. cbn [logs event_of].
    destruct (reenter_logs_callee (callbacks this sender (CDeposit n) w)
      (mkWorld (lock (storage w))
         (token (snd (dispatch this sender (CDeposit n) w))) (logs w)
         (calls w ++ [CallTransferFrom sender this n (lock (storage w))])))
      as (more & Hlogs & Hmore).
    exists more. unfold deposit_returned at 1. rewrite Hlogs. cbn [logs].
    split; [by rewrite <- app_assoc|]. split; [exact Hmore|].
    intros Hq. rewrite reenter_strangers in Hlogs by exact Hq. cbn [logs] in Hlogs.
    apply (app_inv_head (logs w)). by rewrite app_nil_r.
  - exists []. revert Hok. run. repeat step; intros Hok; try discriminate Hok; by repeat split.
  - exists []. revert Hok. run. repeat step; intros Hok; try discriminate Hok; by repeat split.
  - apply withdraw_inv in Hok as (_ & _ & _ & _ & _ & _ & ->).
    unfold withdrawn. cbn [logs event_of].
    destruct (reenter_logs_callee (callbacks this sender (CWithdraw n) w)
      (mkWorld (debited sender n (storage w))
         (token (snd (dispatch this sender (CWithdraw n) w))) (logs w)
         (calls w ++ [CallBalanceOf this (lock (storage w));
                      CallTransfer sender (n / CREDIT_RATE) (debited sender n (storage w))])))
      as (more & Hlogs & Hmore).
    exists more. unfold withdraw_returned at 1. rewrite Hlogs. cbn [logs].
    split; [by rewrite <- app_assoc|]. split; [exact Hmore|].
    intros Hq. rewrite reenter_strangers in Hlogs by exact Hq. cbn [logs] in Hlogs.
    apply (app_inv_head (logs w)). by rewrite app_nil_r.
  - exists []. revert Hok. run. repeat step; intros Hok; try discriminate Hok; by repeat split.
Qed.

(** X10.  Every external call a function makes ([transferFrom] in
    [deposit], [balanceOf] and [transfer] in [withdraw]) is made with the
    guard locked; so a [deposit], [spendCredits] or [withdraw] entered on
    the storage the token is called on, by anyone and with any argument,
    fails with "ReentrancyGuard: reentrant call" and writes nothing. *)
Theorem external_calls_under_lock (w : World T) sender c :
  ∃ new,
    calls (snd (dispatch this sender c w)) = calls w ++ new ∧
    ∀ i, In i new →
      _status (seen_of i) = _ENTERED ∧
      ∀ (w2 : World T) sender' c',
        storage w2 = seen_of i → guarded c' = true →
        dispatch this sender' c' w2 = (Revert (Error ReentrancyDetected), w2).
Proof.
  assert (Hlocked : ∀ i, _status (seen_of i) = _ENTERED →
    _status (seen_of i) = _ENTERED ∧
    ∀ (w2 : World T) sender' c',
      storage w2 = seen_of i → guarded c' = true →
      dispatch this sender' c' w2 = (Revert (Error ReentrancyDetected), w2)).
  { intros i Hi. split; [exact Hi|]. intros w2 sender' c' Hw2 Hg.
    apply guarded_reentry_reverts; [exact Hg | by rewrite Hw2]. }
  destruct c; run; repeat step; settle;
    first
      [ exists []; split; [by rewrite app_nil_r|]; by intros ? []
      | eexists; split; [by rewrite <- ?app_assoc|];
        intros i Hin; apply Hlocked; simpl in Hin;
        repeat (destruct Hin as [<-|Hin]; [reflexivity|]); destruct Hin ].
Qed.

(** X11.  [spendCredits] and [awardWinnings] never call the token: on
    every path, failing or not, they leave the token and the record of
    external calls as they were. *)
Theorem spend_award_no_interaction (w : World T) sender c :
  (∃ amount, c = CSpendCredits amount) ∨ (∃ player amount, c = CAwardWinnings player amount) →
  token (snd (dispatch this sender c w)) = token w ∧
  calls (snd (dispatch this sender c w)) = calls w.
Proof.
  intros [[amount ->] | (player & amount & ->)]; run; repeat step; done.
Qed.

(** X12.  A balance goes down only by its holder's own hand: if a call
    leaves the balance of [b] lower, the caller was [b], the call was a
    [spendCredits] or a [withdraw] of a positive amount, and the balance
    fell by no more than that amount: by exactly the amount for
    [spendCredits], and for [withdraw] unless the callee, acting as the
    owner, added to it meanwhile. *)
Theorem balance_decreases_only_by_holder (w : World T) sender c b :
  getCredits (storage (snd (execute this sender c w))) b < getCredits (storage w) b →
  sender = b ∧
  ∃ amount,
    (c = CSpendCredits amount ∨ c = CWithdraw amount) ∧
    0 < amount ∧
    getCredits (storage w) b - amount
      ≤ getCredits (storage (snd (execute this sender c w))) b ∧
    (c = CSpendCredits amount ∨ quiet this sender c w →
       getCredits (storage (snd (execute this sender c w))) b
       = getCredits (storage w) b - amount).
Proof.
  destruct (execute_cases this w sender c) as [[f ->] | Hok]; [cbn [snd]; lia|].
  rewrite Hok. cbn [snd]. destruct c as [n|n|p n|n|o].
  - apply deposit_inv in Hok as (_ & Hpos & _ & _ & _ & ->). intros Hlt. exfalso.
    revert Hlt. unfold deposited. cbn [storage]. tidy.
    pose proof (reenter_mono (callbacks this sender (CDeposit n) w)
      (mkWorld (set_status _ENTERED (storage w))
         (token (snd (dispatch this sender (CDeposit n) w))) (logs w)
         (calls w ++ [CallTransferFrom sender this n (set_status _ENTERED (storage w))]))) as Hm.
    cbn [storage] in Hm. unfold deposit_returned. tidy.
    destruct (decide (sender = b)) as [->|Hne].
    + rewrite getCredits_set_eq. specialize (Hm b). tidy. unfold CREDIT_RATE. lia.
    + rewrite getCredits_set_ne by done. specialize (Hm b). tidy. lia.
  - revert Hok. run. repeat step; intros Hok; try discriminate Hok. tidy.
    destruct (decide (sender = b)) as [->|Hne].
    + rewrite getCredits_set_eq. intros _. split; [done|]. exists n.
      split; [by left|]. split; [lia|]. split; [lia|done].
    + rewrite getCredits_set_ne by done. tidy. lia.
  - revert Hok. run. repeat step; intros Hok; try discriminate Hok. tidy.
    destruct (decide (p = b)) as [->|Hne].
    + rewrite getCredits_set_eq. lia.
    + rewrite getCredits_set_ne by done. lia.
  - apply withdraw_inv in Hok as (_ & Hpos & _ & _ & _ & _ & Hw').
    rewrite Hw'. unfold withdrawn. cbn [storage]. tidy.
    pose proof (reenter_mono (callbacks this sender (CWithdraw n) w)
      (mkWorld (debited sender n (storage w))
         (token (snd (dispatch this sender (CWithdraw n) w))) (logs w)
         (calls w ++ [CallBalanceOf this (set_status _ENTERED (storage w));
                      CallTransfer sender (n / CREDIT_RATE) (debited sender n (storage w))]))
      b) as Hm.
    cbn [storage] in Hm. unfold withdraw_returned. tidy. revert Hm. unfold debited at 1. tidy.
    destruct (decide (sender = b)) as [->|Hne].
    + rewrite getCredits_set_eq. intros Hm Hlt. split; [done|]. exists n.
      split; [by right|]. split; [done|]. split; [exact Hm|].
      intros [Hc | Hq]; [discriminate Hc|].
      rewrite reenter_strangers by exact Hq. cbn [storage]. unfold debited. by tidy.
    + rewrite getCredits_set_ne by done. tidy. lia.
  - revert Hok. run. repeat step; intros Hok; try discriminate Hok. tidy. lia.
Qed.

(** X13.  A balance goes up only by the holder's own [deposit], by an
    [awardWinnings] from the owner, or by what the callee does as the
    owner while a [deposit] or [withdraw] waits for it.  If a call leaves
    the balance of [b] higher, then it is a deposit by [b], and the
    balance rose by at least its credits (by exactly them when the callee
    stays quiet); or it is an award to [b] from the owner, and the balance
    rose by the award; or it is a [deposit] or [withdraw] during which the
    callee acted as the owner. *)
Theorem balance_increases_only_by_deposit_or_award (w : World T) sender c b :
  getCredits (storage w) b < getCredits (storage (snd (execute this sender c w))) b →
  (∃ bullAmount,
     c = CDeposit bullAmount ∧ sender = b ∧
     getCredits (storage w) b + bullAmount * CREDIT_RATE
       ≤ getCredits (storage (snd (execute this sender c w))) b ∧
     (quiet this sender c w →
        getCredits (storage (snd (execute this sender c w))) b
        = getCredits (storage w) b + bullAmount * CREDIT_RATE)) ∨
  (∃ amount,
     c = CAwardWinnings b amount ∧ sender = _owner (storage w) ∧
     getCredits (storage (snd (execute this sender c w))) b
       = getCredits (storage w) b + amount) ∨
  ((∃ amount, c = CDeposit amount ∨ c = CWithdraw amount) ∧
   ¬ quiet this sender c w).
Proof.
  destruct (execute_cases this w sender c) as [[f ->] | Hok]; [cbn [snd]; lia|].
  destruct c as [n|n|p n|n|o].
  - destruct (decide (sender = b)) as [->|Hne].
    + intros _. left. exists n. split; [done|]. split; [done|].
      rewrite Hok. cbn [snd].
      apply deposit_inv in Hok as (_ & Hpos & _ & _ & _ & ->).
      unfold deposited. cbn [storage]. tidy. split.
      * unfold deposit_returned.
        pose proof (reenter_mono (callbacks this b (CDeposit n) w)
          (mkWorld (set_status _ENTERED (storage w))
             (token (snd (dispatch this b (CDeposit n) w))) (logs w)
             (calls w ++ [CallTransferFrom b this n (set_status _ENTERED (storage w))])) b) as Hm.
        cbn [storage] in Hm. revert Hm. tidy. lia.
      * intros Hq. rewrite deposit_returned_storage by exact Hq. cbn [storage]. by tidy.
    + intros Hlt. right. right. split; [exists n; by left|]. intros Hq.
      rewrite (execute_frame this w sender (CDeposit n) b) in Hlt; [lia| |exact Hq].
      simpl. congruence.
  - intros Hlt. exfalso. revert Hlt Hok. run.
    repeat step; intros Hlt Hok; try discriminate Hok; revert Hlt; tidy;
      destruct (decide (sender = b)) as [->|Hne];
      rewrite ?getCredits_set_eq, ?getCredits_set_ne by done; tidy; lia.
  - intros Hlt. right. left. exists n. revert Hlt Hok. run.
    repeat step; intros Hlt Hok; try discriminate Hok; revert Hlt; tidy;
      destruct (decide (p = b)) as [->|Hne];
      rewrite ?getCredits_set_eq, ?getCredits_set_ne by done; tidy; try lia.
    intros _. done.
  - intros Hlt. right. right. split; [exists n; by right|]. intros Hq.
    rewrite Hok in Hlt. cbn [snd] in Hlt.
    apply withdraw_inv in Hok as (_ & Hpos & _ & _ & _ & _ & Hw').
    rewrite Hw' in Hlt. unfold withdrawn in Hlt.
    rewrite withdraw_returned_storage in Hlt by exact Hq.
    cbn [storage] in Hlt. unfold debited in Hlt. revert Hlt. tidy.
    destruct (decide (sender = b)) as [->|Hne];
      rewrite ?getCredits_set_eq, ?getCredits_set_ne by done; tidy; lia.
  - intros Hlt. exfalso. revert Hlt Hok. run.
    repeat step; intros Hlt Hok; try discriminate Hok; revert Hlt; tidy; lia.
Qed.

(** *** Accounting for the asset behind the credits *)

Lemma execute_surplus (w w' : World T) sender c :
  sender ≠ this →
  quiet this sender c w →
  execute this sender c w = (Ok tt, w') →
  surplus this w' = surplus this w + surplus_change c.
Proof.
  intros Hne Hq Hx. destruct c as [n|n|p n|n|o].
  - apply deposit_inv in Hx as (_ & _ & Hcall & _ & _ & Hw').
    apply transferFrom_moves in Hcall. specialize (Hcall this).
    rewrite Hw'. unfold deposited. rewrite deposit_returned_storage by exact Hq.
    unfold surplus, lock. cbn [storage token surplus_change].
    rewrite total_credits_set_status, total_credits_set, total_credits_set_status.
    tidy. rewrite Hcall. repeat case_decide; try congruence. unfold CREDIT_RATE. lia.
  - run. repeat step; try absurd_path. injection Hx as <-.
    unfold surplus. cbn [storage token surplus_change].
    rewrite total_credits_set_status, total_credits_set, total_credits_set_status.
    tidy. lia.
  - run. repeat step; try absurd_path. injection Hx as <-.
    unfold surplus. cbn [storage token surplus_change].
    rewrite total_credits_set. lia.
  - apply withdraw_inv in Hx as (_ & _ & _ & _ & _ & Hcall & Hw').
    apply transfer_moves in Hcall. specialize (Hcall this).
    rewrite Hw'. unfold withdrawn. rewrite withdraw_returned_storage by exact Hq.
    unfold surplus, debited, lock. cbn [storage token surplus_change].
    rewrite total_credits_set_status, total_credits_set, total_credits_set_status.
    tidy. rewrite Hcall. repeat case_decide; try congruence. arith.
  - run. repeat step; try absurd_path. injection Hx as <-.
    unfold surplus. cbn [storage token surplus_change].
    rewrite total_credits_set_owner. lia.
Qed.

Lemma committed_change_nonneg (w w' : World T) sender c :
  is_award c = false →
  execute this sender c w = (Ok tt, w') →
  0 ≤ surplus_change c.
Proof.
  intros Ha Hx. destruct c as [n|n|p n|n|o]; try discriminate;
    cbn [surplus_change]; try lia; [|arith].
  run. repeat step; absurd_path.
Qed.

(** X14.  The books of one call.  With a token that moves what it
    reports and does not act as the owner while the call waits for it,
    and a caller other than the ledger, a call that commits changes the
    ledger's surplus (the credits its asset would pay for, less the
    credits outstanding) by a fixed amount: nothing for a deposit, the
    amount spent for [spendCredits], minus the award for [awardWinnings],
    and the remainder the division dropped for [withdraw]; a call that
    fails leaves it as it was. *)
Theorem surplus_accounting (w : World T) sender c :
  sender ≠ this →
  quiet this sender c w →
  let (r, w') := execute this sender c w in
  match r with
  | Ok _ => surplus this w' = surplus this w + surplus_change c
  | Revert _ => surplus this w' = surplus this w
  end.
Proof.
  intros Hne Hq.
  destruct (execute_cases this w sender c) as [[f ->] | Hok]; [done|].
  rewrite Hok. exact (execute_surplus _ _ sender c Hne Hq Hok).
Qed.

(** X16.  In a ledger whose credits are covered, with every balance a
    [uint256], the reserve check of [withdraw] cannot fail: whoever asks
    for no more than their balance asks for no more units than the
    ledger holds; so a withdrawal of at least the rate, entered with the
    guard idle, commits as soon as the token's [transfer] returns
    [true]. *)
Theorem backed_withdraw_passes_reserve (w : World T) sender creditAmount :
  wf_storage (storage w) → backed this w → Idle w →
  CREDIT_RATE ≤ creditAmount ≤ getCredits (storage w) sender →
  creditAmount / CREDIT_RATE ≤ balanceOf (token w) this ∧
  ∀ t',
    transfer (debited sender creditAmount (storage w)) this (token w) sender
      (creditAmount / CREDIT_RATE) = Ok (true, t') →
    execute this sender (CWithdraw creditAmount) w
    = (Ok tt, withdrawn this sender creditAmount t' w).
Proof.
  intros Hwf Hb Hi Hamt. pose proof (getCredits_le_total _ sender Hwf) as Hle.
  unfold backed in Hb.
  assert (Hres : creditAmount / CREDIT_RATE ≤ balanceOf (token w) this) by arith.
  split; [exact Hres|].
  intros t' Hcall. apply withdraw_succeeds; [|exact Hcall].
  unfold withdraw_checks_pass. split; [exact Hi|]. arith.
Qed.

(** X17.  What was just deposited can be taken out again.  After a
    committed [deposit] of [d] units into a ledger holding a non-negative
    reserve, a [withdraw] by the same caller of any amount from the rate
    up to [d * 100] passes every check of the ledger and commits as soon
    as the token's [transfer] returns [true]; it leaves the ledger [d]
    less the units paid above the starting reserve, and the caller at
    least [d * 100] less the amount above the starting balance: exactly
    that when the token did not act as the owner during either call. *)
Theorem deposit_can_be_withdrawn (w w1 : World T) sender d creditAmount t2 :
  sender ≠ this →
  0 ≤ getCredits (storage w) sender →
  0 ≤ balanceOf (token w) this →
  execute this sender (CDeposit d) w = (Ok tt, w1) →
  CREDIT_RATE ≤ creditAmount ≤ d * CREDIT_RATE →
  transfer (debited sender creditAmount (storage w1)) this (token w1) sender
    (creditAmount / CREDIT_RATE) = Ok (true, t2) →
  ∃ w2,
    execute this sender (CWithdraw creditAmount) w1 = (Ok tt, w2) ∧
    getCredits (storage w) sender + d * CREDIT_RATE - creditAmount
      ≤ getCredits (storage w2) sender ∧
    balanceOf (token w2) this
      = balanceOf (token w) this + d - creditAmount / CREDIT_RATE ∧
    (quiet this sender (CDeposit d) w →
     quiet this sender (CWithdraw creditAmount) w1 →
       getCredits (storage w2) sender
       = getCredits (storage w) sender + d * CREDIT_RATE - creditAmount).
Proof.
  intros Hne Hbal Hres Hdep Hamt Hout.
  pose proof (transfer_moves _ _ _ _ _ _ Hout this) as Hm2.
  apply deposit_inv in Hdep as (_ & _ & Hin & _ & _ & Hw1).
  pose proof (transferFrom_moves _ _ _ _ _ _ _ Hin this) as Hm1.
  set (m := deposit_returned this sender d (token w1) w) in *.
  assert (Hmid : getCredits (storage w) sender ≤ getCredits (storage m) sender).
  { unfold m, deposit_returned.
    apply (reenter_mono _ (mkWorld (lock (storage w)) (token w1) (logs w) _)). }
  assert (Hc1 : getCredits (storage w1) sender
                = getCredits (storage m) sender + d * CREDIT_RATE).
  { rewrite Hw1 at 1. unfold deposited. cbn [storage]. fold m. by tidy. }
  assert (Hi1 : Idle w1) by (rewrite Hw1; reflexivity).
  assert (Hr1 : balanceOf (token w1) this = balanceOf (token w) this + d).
  { rewrite Hm1. repeat case_decide; try congruence; lia. }
  set (w2 := withdrawn this sender creditAmount t2 w1).
  assert (Ht2 : token w2 = t2).
  { unfold w2, withdrawn, withdraw_returned. cbn [token]. by rewrite reenter_token. }
  assert (Hlow : getCredits (storage w1) sender - creditAmount
                 ≤ getCredits (storage w2) sender).
  { unfold w2, withdrawn, withdraw_returned. cbn [storage]. tidy.
    etrans; [|apply (reenter_mono _ (mkWorld (debited sender creditAmount (storage w1)) _ _ _))].
    cbn [storage]. unfold debited. by tidy. }
  exists w2. split; [|split; [|split]].
  - apply withdraw_succeeds; [|exact Hout].
    unfold withdraw_checks_pass. rewrite Hc1, Hr1.
    split; [exact Hi1|]. arith.
  - lia.
  - rewrite Ht2, Hm2, Hr1. repeat case_decide; try congruence; lia.
  - intros Hq1 Hq2. unfold w2, withdrawn.
    rewrite withdraw_returned_storage by exact Hq2. cbn [storage]. unfold debited. tidy.
    rewrite Hc1. unfold m. rewrite deposit_returned_storage by exact Hq1.
    cbn [storage]. tidy. lia.
Qed.

(** X18.  Splitting a withdrawal never pays more.  Two committed
    withdrawals of [a] and then [b] credits pay the caller
    [a / 100 + b / 100] units, which is what one withdrawal of [a + b]
    would pay or one unit less, and leave the caller no less than
    [a + b] credits below the start: exactly [a + b] below when the token
    did not act as the owner during either call. *)
Theorem split_withdraw_pays_no_more (w w1 w2 : World T) sender a b :
  sender ≠ this →
  execute this sender (CWithdraw a) w = (Ok tt, w1) →
  execute this sender (CWithdraw b) w1 = (Ok tt, w2) →
  getCredits (storage w) sender - (a + b) ≤ getCredits (storage w2) sender ∧
  balanceOf (token w2) sender
    = balanceOf (token w) sender + a / CREDIT_RATE + b / CREDIT_RATE ∧
  a / CREDIT_RATE + b / CREDIT_RATE ≤ (a + b) / CREDIT_RATE
    ≤ a / CREDIT_RATE + b / CREDIT_RATE + 1 ∧
  (quiet this sender (CWithdraw a) w → quiet this sender (CWithdraw b) w1 →
     getCredits (storage w2) sender = getCredits (storage w) sender - (a + b)).
Proof.
  intros Hne Ha Hb.
  apply withdraw_inv in Ha as (_ & _ & _ & _ & _ & Hc1 & Hw1).
  apply withdraw_inv in Hb as (_ & _ & _ & _ & _ & Hc2 & Hw2).
  pose proof (transfer_moves _ _ _ _ _ _ Hc1 sender) as Hm1.
  pose proof (transfer_moves _ _ _ _ _ _ Hc2 sender) as Hm2.
  assert (Hl1 : getCredits (storage w) sender - a ≤ getCredits (storage w1) sender).
  { rewrite Hw1 at 1. unfold withdrawn, withdraw_returned. cbn [storage]. tidy.
    etrans; [|apply (reenter_mono _ (mkWorld (debited sender a (storage w)) _ _ _))].
    cbn [storage]. unfold debited. by tidy. }
  assert (Hl2 : getCredits (storage w1) sender - b ≤ getCredits (storage w2) sender).
  { rewrite Hw2 at 1. unfold withdrawn, withdraw_returned. cbn [storage]. tidy.
    etrans; [|apply (reenter_mono _ (mkWorld (debited sender b (storage w1)) _ _ _))].
    cbn [storage]. unfold debited. by tidy. }
  split; [lia|]. split; [|split].
  - rewrite Hm2, Hm1. repeat case_decide; try congruence; lia.
  - arith.
  - intros Hq1 Hq2.
    assert (Hg1 : getCredits (storage w1) sender = getCredits (storage w) sender - a).
    { rewrite Hw1 at 1. unfold withdrawn. rewrite withdraw_returned_storage by exact Hq1.
      cbn [storage]. unfold debited. by tidy. }
    rewrite Hw2 at 1. unfold withdrawn. rewrite withdraw_returned_storage by exact Hq2.
    cbn [storage]. unfold debited. tidy. lia.
Qed.

End Behaviour.

(** *** Histories, with a token that never calls the ledger as its owner *)

Section Solvency.

Context {T : Type} `{IERC20 T} `{!ERC20Laws T} `{!Outsider T}.
Variable this : address.

Lemma outsider_quiet (w : World T) sender c : quiet this sender c w.
Proof.
  unfold quiet, callbacks. destruct c as [?|?|? ?|creditAmount|?]; try by constructor.
  - exact (transferFrom_strangers (lock (storage w)) _ _ _ _ _).
  - exact (transfer_strangers (debited sender creditAmount (storage w)) _ _ _ _).
Qed.

Lemma execute_all_surplus cs (w : World T) :
  award_free this cs → surplus this w ≤ surplus this (execute_all this cs w).
Proof.
  revert w. induction cs as [|[sender c] cs IH]; intros w Hfree; [simpl; lia|].
  apply Forall_cons in Hfree as [[Hne Ha] Hfree]. simpl in Hne, Ha. simpl.
  etrans; [|apply IH, Hfree].
  destruct (execute_cases this w sender c) as [[f ->] | Hok]; [simpl; lia|].
  rewrite Hok. cbn [snd].
  pose proof (execute_surplus this _ _ _ _ Hne (outsider_quiet w sender c) Hok).
  pose proof (committed_change_nonneg this _ _ _ _ Ha Hok). lia.
Qed.

(** An account nobody credits stays at zero: the holder cannot spend or
    withdraw what is not there, and the others do not reach it. *)
Lemma execute_never_credited (w : World T) sender c a :
  credited_account sender c ≠ Some a →
  getCredits (storage w) a = 0 →
  getCredits (storage (snd (execute this sender c w))) a = 0.
Proof.
  intros Hc Hzero.
  destruct (decide (written_account sender c = Some a)) as [Hw | Hw].
  - destruct (execute_cases this w sender c) as [[f ->] | Hok]; [done|].
    exfalso. destruct c as [n|n|p n|n|o]; simpl in Hc, Hw; try congruence.
    + injection Hw as ->. revert Hok. run.
      repeat step; intros Hok; try discriminate Hok; tidy; lia.
    + injection Hw as ->.
      apply withdraw_inv in Hok as (_ & Hpos & Hbal & _). lia.
  - rewrite (execute_frame this w sender c a Hw (outsider_quiet w sender c)). exact Hzero.
Qed.

Lemma execute_all_never_credited cs (w : World T) a :
  never_credited a cs →
  getCredits (storage w) a = 0 →
  getCredits (storage (execute_all this cs w)) a = 0.
Proof.
  revert w. induction cs as [|[sender c] cs IH]; intros w Hcs Hzero; [exact Hzero|].
  apply Forall_cons in Hcs as [Hc Hcs]. simpl in Hc. simpl.
  apply IH; [exact Hcs|]. by apply execute_never_credited.
Qed.

(** X15.  Solvency.  Through any history of calls in which nobody is
    awarded credits (and the ledger is not its own caller), with a token
    that moves what it reports and never calls the ledger as its owner,
    the surplus never shrinks; so a ledger whose credits were all covered
    by its asset still covers them. *)
Theorem award_free_history_stays_backed cs (w : World T) :
  award_free this cs →
  surplus this w ≤ surplus this (execute_all this cs w) ∧
  (backed this w → backed this (execute_all this cs w)).
Proof.
  intros Hfree. pose proof (execute_all_surplus cs w Hfree) as Hs.
  split; [exact Hs|]. unfold backed, surplus in *. lia.
Qed.

(** X19.  A fresh deployment.  The constructor refuses the zero address
    as token; otherwise it starts with every balance zero.  From there,
    with a token that moves what it reports and never calls the ledger as
    its owner, after any history of calls an account that never deposited
    and was never awarded still reads zero, whatever else it tried, and,
    if nobody was awarded credits, the credits outstanding are covered by
    the asset the ledger holds. *)
Theorem fresh_deployment (deployer _bullToken : address) (t : T) cs :
  (_bullToken = 0%N →
     constructor deployer _bullToken = Revert (Error "Token address cannot be zero")) ∧
  (_bullToken ≠ 0%N →
     ∃ s, constructor deployer _bullToken = Ok s ∧
          (∀ a, getCredits s a = 0) ∧
          (∀ a, never_credited a cs →
                getCredits (storage (execute_all this cs (mkWorld s t [] []))) a = 0) ∧
          (0 ≤ balanceOf t this → award_free this cs →
             backed this (execute_all this cs (mkWorld s t [] [])))).
Proof.
  unfold constructor. split; intros Hz.
  - by rewrite bool_decide_eq_true_2.
  - rewrite bool_decide_eq_false_2 by done. eexists. split; [reflexivity|].
    assert (Hzero : ∀ a, getCredits (mkStorage _bullToken ∅ deployer _NOT_ENTERED) a = 0).
    { intros a. unfold getCredits. simpl. by rewrite lookup_empty. }
    split; [exact Hzero|]. split.
    + intros a Hcs. apply execute_all_never_credited; [exact Hcs | apply Hzero].
    + intros Hres Hfree. pose proof (execute_all_surplus cs
        (mkWorld (mkStorage _bullToken ∅ deployer _NOT_ENTERED) t [] []) Hfree) as Hs.
      unfold backed, surplus in *. cbn [storage token] in Hs.
      unfold total_credits in Hs at 1. simpl in Hs. rewrite map_fold_empty in Hs.
      unfold CREDIT_RATE in *. lia.
Qed.

End Solvency.

(** ** The key checks of the scripts *)

Lemma hex64_not_prefixed h : hex64_test h = true → startsWith h (js "0x") = false.
Proof.
  unfold hex64_test, startsWith. intros [Hlen Hall]%andb_true_iff.
  apply bool_decide_eq_false_2. intros Hp.
  destruct h as [|c0 [|c1 h]]; try discriminate.
  simpl in Hp. injection Hp as -> ->.
  simpl in Hall. discriminate.
Qed.

Lemma hex64_length h : hex64_test h = true → length h = 64%nat.
Proof.
  unfold hex64_test. intros [Hlen _]%andb_true_iff.
  by apply bool_decide_eq_true in Hlen.
Qed.

Lemma startsWith_0x_split k :
  startsWith k (js "0x") = true → k = js "0x" ++ substring 2 k.
Proof.
  unfold startsWith, substring. intros Hp%bool_decide_eq_true. simpl in Hp.
  rewrite <- Hp at 1. symmetry. apply take_drop.
Qed.

Lemma deploymentKey_shape k full :
  deploymentKey k = Some full →
  ∃ h, full = js "0x" ++ h ∧ hex64_test h = true.
Proof.
  unfold deploymentKey. destruct k as [[|c pk]|]; try discriminate.
  cbn [falsy]. destruct (hex64_test (formattedKey (c :: pk))) eqn:Hhex; [|discriminate].
  cbn [negb]. intros [= <-]. unfold formattedKey, fullPrivateKey in *.
  destruct (startsWith (c :: pk) (js "0x")) eqn:Hp.
  - exists (substring 2 (c :: pk)). split; [by apply startsWith_0x_split | exact Hhex].
  - by exists (c :: pk).
Qed.

(** X20.  [check-setup.js] and the main deployment script agree on the
    key: when [.env]
    exists and the RPC variable is set, [checkEnvFile] passes exactly the
    keys [isValidPrivateKey] accepts, although one tests the placeholder
    before the shape and the other after it. *)
Theorem key_checks_agree (rpc k : option (list N)) :
  falsy rpc = false →
  checkEnvFile true rpc k = isValidPrivateKey k.
Proof.
  intros Hrpc. unfold checkEnvFile, isValidPrivateKey. rewrite Hrpc. cbn [negb orb].
  destruct k as [[|c pk]|]; [reflexivity| |reflexivity]. cbn [falsy orb].
  destruct (hex64_test (formattedKey (c :: pk))), (bool_decide (c :: pk = placeholder));
    reflexivity.
Qed.

(** X21.  A key [isValidPrivateKey] accepts gets through the key check of
    the Mumbai deployment script, and the wallet key built from it is
    always the
    prefix [0x] followed by exactly 64 hexadecimal digits, 66 code units
    in all, whether the variable carried the prefix or not. *)
Theorem valid_key_deploys_with_prefix (k : option (list N)) :
  isValidPrivateKey k = true →
  ∃ full h,
    deploymentKey k = Some full ∧ full = js "0x" ++ h ∧
    length full = 66%nat ∧ length h = 64%nat ∧ forallb is_hex_digit h = true.
Proof.
  intros Hv.
  assert (Hd : ∃ full, deploymentKey k = Some full).
  { unfold isValidPrivateKey, deploymentKey in *.
    destruct k as [[|c pk]|]; try discriminate. cbn [falsy orb] in *.
    destruct (bool_decide (c :: pk = placeholder)); [discriminate|].
    rewrite Hv. by eexists. }
  destruct Hd as [full Hd]. destruct (deploymentKey_shape _ _ Hd) as (h & -> & Hh).
  exists (js "0x" ++ h), h. pose proof (hex64_length _ Hh) as Hlen.
  split; [exact Hd|]. split; [reflexivity|]. split; [|split; [exact Hlen|]].
  - rewrite length_app, Hlen. reflexivity.
  - unfold hex64_test in Hh. by apply andb_true_iff in Hh as [_ ?].
Qed.

(** X22.  The placeholder test looks at the variable as it is written:
    a string of 64 hexadecimal digits is accepted by [isValidPrivateKey]
    unless it is the 64 zeros, but with the prefix [0x] in front every
    such string is accepted, the 64 zeros too. *)
Theorem prefix_hides_placeholder (h : list N) :
  hex64_test h = true →
  isValidPrivateKey (Some h) = negb (bool_decide (h = placeholder)) ∧
  isValidPrivateKey (Some (js "0x" ++ h)) = true.
Proof.
  intros Hh. pose proof (hex64_length _ Hh) as Hlen.
  pose proof (hex64_not_prefixed _ Hh) as Hnp. split.
  - unfold isValidPrivateKey, formattedKey. rewrite Hnp, Hh.
    destruct h; [discriminate|]. cbn [falsy orb].
    by destruct (bool_decide _).
  - change (js "0x" ++ h) with (48%N :: 120%N :: h).
    unfold isValidPrivateKey, formattedKey. cbn [falsy orb].
    rewrite bool_decide_eq_false_2.
    + assert (Hp : startsWith (48%N :: 120%N :: h) (js "0x") = true).
      { unfold startsWith. apply bool_decide_eq_true_2. reflexivity. }
      rewrite Hp. exact Hh.
    + intros Heq. apply (f_equal length) in Heq. cbn [length] in Heq.
      rewrite Hlen in Heq. vm_compute in Heq. discriminate.
Qed.

(** X23.  The wallet key is a fixed point of the key handling of the
    Mumbai deployment script: fed back as the variable, it passes the
    check
    and comes out unchanged. *)
Theorem deploymentKey_idempotent (k : option (list N)) (full : list N) :
  deploymentKey k = Some full → deploymentKey (Some full) = Some full.
Proof.
  intros Hd. destruct (deploymentKey_shape _ _ Hd) as (h & -> & Hh).
  assert (Hp : startsWith (js "0x" ++ h) (js "0x") = true).
  { unfold startsWith. apply bool_decide_eq_true_2. reflexivity. }
  unfold deploymentKey, formattedKey, fullPrivateKey. rewrite Hp.
  change (js "0x" ++ h) with (48%N :: 120%N :: h).
  cbn [falsy substring drop]. change (drop 0 h) with h. by rewrite Hh.
Qed.

(** ** The further properties at concrete deployments *)

(** X1 at alice spending 50 of her 250 credits. *)
Lemma spendCredits_spends_witness :
  let w := world {[ alice := 250 ]} _NOT_ENTERED (funded 10) in
  (Idle w ∧ 0 < 50 ∧ 50 ≤ getCredits (storage w) alice) ∧
  ∃ w', execute arcade alice (CSpendCredits 50) w = (Ok tt, w') ∧
        getCredits (storage w') alice = getCredits (storage w) alice - 50 ∧
        logs w' = logs w ++ [CreditsSpent alice 50] ∧
        token w' = token w ∧ calls w' = calls w ∧ Idle w'.
Proof.
  intros w.
  assert (H1 : Idle w) by reflexivity.
  assert (H2 : 0 < 50) by lia.
  assert (H3 : 50 ≤ getCredits (storage w) alice) by evaluated.
  split; [done|].
  exact (spendCredits_spends arcade w alice 50 H1 H2 H3).
Defined.

(** X2 at [withdraw(0)] by alice, who holds 250 credits. *)
Lemma zero_amount_rejected_witness :
  let w := world {[ alice := 250 ]} _NOT_ENTERED (funded 10) in
  (_status (storage w) ≠ _ENTERED ∧
   (CWithdraw 0 = CDeposit 0 ∨ CWithdraw 0 = CSpendCredits 0 ∨ CWithdraw 0 = CWithdraw 0)) ∧
  execute arcade alice (CWithdraw 0) w = (Revert (Error InvalidAmount), w) ∧
  calls (snd (dispatch arcade alice (CWithdraw 0) w)) = calls w.
Proof.
  intros w.
  assert (H1 : _status (storage w) ≠ _ENTERED) by discriminate.
  assert (H2 : CWithdraw 0 = CDeposit 0 ∨ CWithdraw 0 = CSpendCredits 0
               ∨ CWithdraw 0 = CWithdraw 0) by (right; right; reflexivity).
  split; [done|].
  exact (zero_amount_rejected arcade w alice (CWithdraw 0) H1 H2).
Defined.

(** X3 at a token that answers [false]. *)
Lemma deposit_transfer_failure_witness :
  let w := world ∅ _NOT_ENTERED Frozen in
  (_status (storage w) ≠ _ENTERED ∧ 0 < 5 ∧
   transferFrom (lock (storage w)) arcade (token w) alice arcade 5 = Ok (false, Frozen)) ∧
  execute arcade alice (CDeposit 5) w = (Revert (Error TransferFailed), w).
Proof.
  intros w.
  assert (H1 : _status (storage w) ≠ _ENTERED) by discriminate.
  assert (H2 : 0 < 5) by lia.
  assert (H3 : transferFrom (lock (storage w)) arcade (token w) alice arcade 5
               = Ok (false, Frozen)) by reflexivity.
  split; [done|].
  exact (proj1 (deposit_transfer_failure arcade w alice 5 H1 H2) Frozen H3).
Defined.

(** X4 at a deposit of [2 ^ 255] units into a token that answers [true]
    to everything. *)
Lemma deposit_beyond_range_never_commits_witness :
  let w := world ∅ _NOT_ENTERED (mkSpy None) in
  (MAX_UINT256 < 2 ^ 255 * CREDIT_RATE ∧ _status (storage w) ≠ _ENTERED ∧
   transferFrom (lock (storage w)) arcade (token w) alice arcade (2 ^ 255)
   = Ok (true, mkSpy None)) ∧
  execute arcade alice (CDeposit (2 ^ 255)) w = (Revert (Panic ARITHMETIC_OVERFLOW), w).
Proof.
  intros w.
  assert (H1 : MAX_UINT256 < 2 ^ 255 * CREDIT_RATE) by evaluated.
  assert (H2 : _status (storage w) ≠ _ENTERED) by discriminate.
  assert (H3 : transferFrom (lock (storage w)) arcade (token w) alice arcade (2 ^ 255)
               = Ok (true, mkSpy None)) by reflexivity.
  split; [done|].
  exact (proj2 (deposit_beyond_range_never_commits arcade w alice (2 ^ 255) H1)
           H2 (mkSpy None) H3).
Defined.

(** X5 at bob, who was awarded 500 credits on a ledger holding 2 units. *)
Lemma withdraw_insufficient_reserve_witness :
  let w := world {[ bob := 500 ]} _NOT_ENTERED (funded 2) in
  (_status (storage w) ≠ _ENTERED ∧ CREDIT_RATE ≤ 500 ∧
   500 ≤ getCredits (storage w) bob ∧ balanceOf (token w) arcade < 500 / CREDIT_RATE) ∧
  execute arcade bob (CWithdraw 500) w = (Revert (Error InsufficientReserve), w).
Proof.
  intros w.
  assert (H1 : _status (storage w) ≠ _ENTERED) by discriminate.
  assert (H2 : CREDIT_RATE ≤ 500) by evaluated.
  assert (H3 : 500 ≤ getCredits (storage w) bob) by evaluated.
  assert (H4 : balanceOf (token w) arcade < 500 / CREDIT_RATE) by evaluated.
  split; [done|].
  exact (proj1 (withdraw_insufficient_reserve arcade w bob 500 H1 H2 H3 H4)).
Defined.

(** X6 at a withdrawal below the rate, which does not commit, and X7 at
    a deposit of 5 units, which does. *)
Lemma withdraw_commits_iff_witness :
  let w := world {[ alice := 250 ]} _NOT_ENTERED (funded 10) in
  ¬ CREDIT_RATE ≤ 50 ∧
  ¬ ∃ w', execute arcade alice (CWithdraw 50) w = (Ok tt, w').
Proof.
  intros w.
  assert (H1 : ¬ CREDIT_RATE ≤ 50) by (unfold CREDIT_RATE; lia).
  split; [exact H1|].
  intros Hc. apply (withdraw_commits_iff arcade w alice 50) in Hc as (_ & Hr & _).
  exact (H1 Hr).
Defined.

Lemma deposit_commits_iff_witness :
  let w := world ∅ _NOT_ENTERED (funded 0) in
  quiet arcade alice (CDeposit 5) w ∧
  (∃ w', execute arcade alice (CDeposit 5) w = (Ok tt, w')) ∧
  ∀ t', getCredits (storage (deposit_returned arcade alice 5 t' w)) alice
        = getCredits (storage w) alice.
Proof.
  intros w.
  assert (H1 : quiet arcade alice (CDeposit 5) w) by constructor.
  split; [exact H1|].
  destruct (deposit_commits_iff arcade w alice 5) as (Hiff & _ & Hq).
  split; [|exact (Hq H1)].
  apply Hiff. split; [discriminate|]. split; [lia|].
  eexists. split; [vm_compute; reflexivity|]. split; evaluated.
Defined.

(** X8 at the owner awarding to the zero address and awarding nothing. *)
Lemma awardWinnings_validation_witness :
  let w := world ∅ _NOT_ENTERED (funded 0) in
  operator = _owner (storage w) ∧
  execute arcade operator (CAwardWinnings 0%N 500) w = (Revert (Error InvalidAddress), w) ∧
  execute arcade operator (CAwardWinnings bob 0) w = (Revert (Error InvalidAmount), w).
Proof.
  intros w.
  assert (H1 : operator = _owner (storage w)) by reflexivity.
  split; [exact H1|]. split.
  - exact (proj1 (awardWinnings_validation arcade w operator 0%N 500 H1) eq_refl).
  - assert (H2 : bob ≠ 0%N) by discriminate.
    exact (proj2 (awardWinnings_validation arcade w operator bob 0 H1) H2 eq_refl).
Defined.

(** X9 at alice's withdrawal from a ledger owned by a token that awards
    bob while it pays her: the award is logged first, the withdrawal
    last. *)
Lemma one_event_per_commit_witness :
  let w := handed_over {[ alice := 250 ]} (mkInsider (funded 10) bob 1000) in
  let w' := snd (execute arcade alice (CWithdraw 250) w) in
  fst (execute arcade alice (CWithdraw 250) w) = Ok tt ∧
  logs w' = [WinningsAwarded bob 1000; Withdrawal alice 250 2] ∧
  ∃ between, logs w' = logs w ++ between ++ [Withdrawal alice 250 (250 / CREDIT_RATE)]
             ∧ Forall (λ e, from_callee e = true) between.
Proof.
  intros w w'.
  assert (H1 : execute arcade alice (CWithdraw 250) w = (Ok tt, w')) by evaluated.
  split; [by rewrite H1|]. split; [evaluated|].
  pose proof (one_event_per_commit arcade w alice (CWithdraw 250)) as Hlog.
  rewrite H1 in Hlog. destruct Hlog as (between & Hl & Hb & _).
  exists between. split; [exact Hl | exact Hb].
Defined.

(** X10 at a deposit: the one external call it makes finds the guard
    locked, and a withdrawal tried on that storage is refused. *)
Lemma external_calls_under_lock_witness :
  let w := world ∅ _NOT_ENTERED (funded 0) in
  let seen := lock (storage w) in
  In (CallTransferFrom alice arcade 5 seen) (calls (snd (dispatch arcade alice (CDeposit 5) w))) ∧
  dispatch arcade alice (CWithdraw 100) (world ∅ _ENTERED (funded 0))
    = (Revert (Error ReentrancyDetected), world ∅ _ENTERED (funded 0)).
Proof.
  intros w seen.
  assert (H1 : In (CallTransferFrom alice arcade 5 seen)
                 (calls (snd (dispatch arcade alice (CDeposit 5) w)))) by (left; reflexivity).
  split; [exact H1|].
  destruct (external_calls_under_lock arcade w alice (CDeposit 5)) as (new & Hcalls & Hall).
  rewrite Hcalls in H1. simpl in H1.
  apply (proj2 (Hall _ H1) (world ∅ _ENTERED (funded 0)) alice (CWithdraw 100));
    reflexivity.
Defined.

(** X11 at an award. *)
Lemma spend_award_no_interaction_witness :
  let w := world ∅ _NOT_ENTERED (funded 0) in
  ((∃ amount, CAwardWinnings bob 500 = CSpendCredits amount) ∨
   (∃ player amount, CAwardWinnings bob 500 = CAwardWinnings player amount)) ∧
  token (snd (dispatch arcade operator (CAwardWinnings bob 500) w)) = token w ∧
  calls (snd (dispatch arcade operator (CAwardWinnings bob 500) w)) = calls w.
Proof.
  intros w.
  assert (H1 : (∃ amount, CAwardWinnings bob 500 = CSpendCredits amount) ∨
               (∃ player amount, CAwardWinnings bob 500 = CAwardWinnings player amount))
    by (right; by exists bob, 500).
  split; [exact H1|].
  exact (spend_award_no_interaction arcade w operator (CAwardWinnings bob 500) H1).
Defined.

(** X12 at alice spending 50 credits. *)
Lemma balance_decreases_only_by_holder_witness :
  let w := world {[ alice := 250 ]} _NOT_ENTERED (funded 10) in
  getCredits (storage (snd (execute arcade alice (CSpendCredits 50) w))) alice
    < getCredits (storage w) alice ∧
  alice = alice ∧
  ∃ amount,
    (CSpendCredits 50 = CSpendCredits amount ∨ CSpendCredits 50 = CWithdraw amount) ∧
    0 < amount ∧
    getCredits (storage (snd (execute arcade alice (CSpendCredits 50) w))) alice
      = getCredits (storage w) alice - amount.
Proof.
  intros w.
  assert (H1 : getCredits (storage (snd (execute arcade alice (CSpendCredits 50) w))) alice
               < getCredits (storage w) alice) by evaluated.
  split; [exact H1|].
  destruct (balance_decreases_only_by_holder arcade w alice (CSpendCredits 50) alice H1)
    as (Hs & amount & Hc & Hpos & _ & Hexact).
  split; [exact Hs|]. exists amount. split; [exact Hc|]. split; [exact Hpos|].
  apply Hexact. left. destruct Hc as [Hc | Hc]; [exact Hc | discriminate Hc].
Defined.

(** X13 at alice's withdrawal from a ledger owned by a token that awards
    bob while it pays her: bob's balance rose, and the theorem finds the
    callee at work. *)
Lemma balance_increases_only_by_deposit_or_award_witness :
  let w := handed_over {[ alice := 250 ]} (mkInsider (funded 10) bob 1000) in
  let w' := snd (execute arcade alice (CWithdraw 250) w) in
  getCredits (storage w) bob < getCredits (storage w') bob ∧
  ¬ quiet arcade alice (CWithdraw 250) w.
Proof.
  intros w w'.
  assert (H1 : getCredits (storage w) bob < getCredits (storage w') bob) by evaluated.
  split; [exact H1|].
  destruct (balance_increases_only_by_deposit_or_award arcade w alice
              (CWithdraw 250) bob H1)
    as [(n & Hc & _) | [(n & Hc & _) | [_ Hq]]];
    [discriminate Hc | discriminate Hc | exact Hq].
Defined.

(** X14 at a withdrawal of 250 credits: the 50 credits no unit pays for
    become surplus. *)
Lemma surplus_accounting_witness :
  let w := world {[ alice := 250 ]} _NOT_ENTERED (funded 10) in
  let w' := snd (execute arcade alice (CWithdraw 250) w) in
  (alice ≠ arcade ∧ quiet arcade alice (CWithdraw 250) w) ∧
  fst (execute arcade alice (CWithdraw 250) w) = Ok tt ∧
  surplus arcade w' = surplus arcade w + 50.
Proof.
  intros w w'.
  assert (H1 : alice ≠ arcade) by discriminate.
  assert (H0 : quiet arcade alice (CWithdraw 250) w) by constructor.
  assert (H2 : execute arcade alice (CWithdraw 250) w = (Ok tt, w')) by evaluated.
  split; [done|]. split; [by rewrite H2|].
  pose proof (surplus_accounting arcade w alice (CWithdraw 250) H1 H0) as Hs.
  rewrite H2 in Hs. exact Hs.
Defined.

(** X15 at a deposit, a spend and a withdrawal by alice on a fresh,
    empty ledger. *)
Lemma award_free_history_stays_backed_witness :
  let w := world ∅ _NOT_ENTERED (funded 0) in
  let cs := [(alice, CDeposit 5); (alice, CSpendCredits 30); (alice, CWithdraw 250)] in
  (award_free arcade cs ∧ backed arcade w) ∧
  surplus arcade w ≤ surplus arcade (execute_all arcade cs w) ∧
  backed arcade (execute_all arcade cs w).
Proof.
  intros w cs.
  assert (H1 : award_free arcade cs).
  { unfold award_free, cs. repeat constructor; discriminate. }
  assert (H2 : backed arcade w) by evaluated.
  split; [done|].
  destruct (award_free_history_stays_backed arcade cs w H1) as [Hs Hb].
  split; [exact Hs | exact (Hb H2)].
Defined.

(** X16 at alice, whose 500 credits stand for the 5 units the ledger
    holds. *)
Lemma backed_withdraw_passes_reserve_witness :
  let w := world {[ alice := 500 ]} _NOT_ENTERED (funded 5) in
  (wf_storage (storage w) ∧ backed arcade w ∧ Idle w ∧
   CREDIT_RATE ≤ 500 ≤ getCredits (storage w) alice) ∧
  500 / CREDIT_RATE ≤ balanceOf (token w) arcade.
Proof.
  intros w.
  assert (H1 : wf_storage (storage w)).
  { apply wf_storage_deployed_singleton. unfold is_uint256, MAX_UINT256. lia. }
  assert (H2 : backed arcade w) by evaluated.
  assert (H3 : Idle w) by reflexivity.
  assert (H4 : CREDIT_RATE ≤ 500 ≤ getCredits (storage w) alice) by (split; evaluated).
  split; [done|].
  exact (proj1 (backed_withdraw_passes_reserve arcade w alice 500 H1 H2 H3 H4)).
Defined.

(** X17 at a deposit of 5 units of which 250 credits are taken out. *)
Lemma deposit_can_be_withdrawn_witness :
  let w := world ∅ _NOT_ENTERED (funded 0) in
  let w1 := snd (execute arcade alice (CDeposit 5) w) in
  let t2 := token (snd (execute arcade alice (CWithdraw 250) w1)) in
  (alice ≠ arcade ∧ 0 ≤ getCredits (storage w) alice ∧
   0 ≤ balanceOf (token w) arcade ∧
   execute arcade alice (CDeposit 5) w = (Ok tt, w1) ∧
   CREDIT_RATE ≤ 250 ≤ 5 * CREDIT_RATE ∧
   transfer (debited alice 250 (storage w1)) arcade (token w1) alice
     (250 / CREDIT_RATE) = Ok (true, t2)) ∧
  ∃ w2,
    execute arcade alice (CWithdraw 250) w1 = (Ok tt, w2) ∧
    getCredits (storage w2) alice = getCredits (storage w) alice + 5 * CREDIT_RATE - 250 ∧
    balanceOf (token w2) arcade = balanceOf (token w) arcade + 5 - 250 / CREDIT_RATE.
Proof.
  intros w w1 t2.
  assert (H1 : alice ≠ arcade) by discriminate.
  assert (H2 : 0 ≤ getCredits (storage w) alice) by evaluated.
  assert (H3 : 0 ≤ balanceOf (token w) arcade) by evaluated.
  assert (H4 : execute arcade alice (CDeposit 5) w = (Ok tt, w1)) by evaluated.
  assert (H5 : CREDIT_RATE ≤ 250 ≤ 5 * CREDIT_RATE) by (split; evaluated).
  assert (H6 : transfer (debited alice 250 (storage w1)) arcade (token w1) alice
                 (250 / CREDIT_RATE) = Ok (true, t2)) by evaluated.
  split; [done|].
  destruct (deposit_can_be_withdrawn arcade w w1 alice 5 250 t2 H1 H2 H3 H4 H5 H6)
    as (w2 & Hx & _ & Hb & Hq).
  exists w2. split; [exact Hx|]. split; [|exact Hb].
  apply Hq; constructor.
Defined.

(** X18 at 300 credits taken out as 150 and 150: 2 units instead of 3. *)
Lemma split_withdraw_pays_no_more_witness :
  let w := world {[ alice := 300 ]} _NOT_ENTERED (funded 10) in
  let w1 := snd (execute arcade alice (CWithdraw 150) w) in
  let w2 := snd (execute arcade alice (CWithdraw 150) w1) in
  (alice ≠ arcade ∧
   execute arcade alice (CWithdraw 150) w = (Ok tt, w1) ∧
   execute arcade alice (CWithdraw 150) w1 = (Ok tt, w2)) ∧
  getCredits (storage w2) alice = getCredits (storage w) alice - (150 + 150) ∧
  balanceOf (token w2) alice
    = balanceOf (token w) alice + 150 / CREDIT_RATE + 150 / CREDIT_RATE ∧
  150 / CREDIT_RATE + 150 / CREDIT_RATE < (150 + 150) / CREDIT_RATE.
Proof.
  intros w w1 w2.
  assert (H1 : alice ≠ arcade) by discriminate.
  assert (H2 : execute arcade alice (CWithdraw 150) w = (Ok tt, w1)) by evaluated.
  assert (H3 : execute arcade alice (CWithdraw 150) w1 = (Ok tt, w2)) by evaluated.
  split; [done|].
  destruct (split_withdraw_pays_no_more arcade w w1 w2 alice 150 150 H1 H2 H3)
    as (_ & Hb & _ & Hq).
  split; [apply Hq; constructor|]. split; [exact Hb|]. evaluated.
Defined.

(** X19 at the example deployment: bob, who never deposited, reads zero
    after alice's calls and his own try at a withdrawal. *)
Lemma fresh_deployment_witness :
  let cs := [(alice, CDeposit 5); (bob, CWithdraw 100); (alice, CWithdraw 250)] in
  (bull ≠ 0%N ∧ never_credited bob cs ∧ award_free arcade cs ∧
   0 ≤ balanceOf (funded 0) arcade) ∧
  ∃ s, constructor operator bull = Ok s ∧
       getCredits (storage (execute_all arcade cs (mkWorld s (funded 0) [] []))) bob = 0 ∧
       backed arcade (execute_all arcade cs (mkWorld s (funded 0) [] [])).
Proof.
  intros cs.
  assert (H1 : bull ≠ 0%N) by discriminate.
  assert (H2 : never_credited bob cs).
  { unfold never_credited, cs. repeat constructor; discriminate. }
  assert (H3 : award_free arcade cs).
  { unfold award_free, cs. repeat constructor; discriminate. }
  assert (H4 : 0 ≤ balanceOf (funded 0) arcade) by evaluated.
  split; [done|].
  destruct (proj2 (fresh_deployment arcade operator bull (funded 0) cs) H1)
    as (s & Hs & _ & Hzero & Hbacked).
  exists s. split; [exact Hs|]. split; [exact (Hzero bob H2) | exact (Hbacked H4 H3)].
Defined.

(** X20 to X23 at a key of 64 letters [a], bare and with the prefix. *)
Lemma key_checks_agree_witness :
  let rpc := Some (js "https://rpc-mumbai.maticvigil.com") in
  let k := Some (replicate 64 97%N) in
  falsy rpc = false ∧
  checkEnvFile true rpc k = isValidPrivateKey k ∧ isValidPrivateKey k = true.
Proof.
  intros rpc k.
  assert (H1 : falsy rpc = false) by reflexivity.
  split; [exact H1|]. split; [|reflexivity].
  exact (key_checks_agree rpc k H1).
Defined.

Lemma valid_key_deploys_with_prefix_witness :
  let k := Some (replicate 64 97%N) in
  isValidPrivateKey k = true ∧
  ∃ full h,
    deploymentKey k = Some full ∧ full = js "0x" ++ h ∧
    length full = 66%nat ∧ length h = 64%nat ∧ forallb is_hex_digit h = true.
Proof.
  intros k.
  assert (H1 : isValidPrivateKey k = true) by reflexivity.
  split; [exact H1|].
  exact (valid_key_deploys_with_prefix k H1).
Defined.

Lemma prefix_hides_placeholder_witness :
  hex64_test placeholder = true ∧
  isValidPrivateKey (Some placeholder) = false ∧
  isValidPrivateKey (Some (js "0x" ++ placeholder)) = true.
Proof.
  assert (H1 : hex64_test placeholder = true) by reflexivity.
  split; [exact H1|].
  destruct (prefix_hides_placeholder placeholder H1) as [Hbare Hprefixed].
  split; [|exact Hprefixed].
  rewrite Hbare. reflexivity.
Defined.

Lemma deploymentKey_idempotent_witness :
  let k := Some (replicate 64 97%N) in
  let full := js "0x" ++ replicate 64 97%N in
  deploymentKey k = Some full ∧ deploymentKey (Some full) = Some full.
Proof.
  intros k full.
  assert (H1 : deploymentKey k = Some full) by reflexivity.
  split; [exact H1|].
  exact (deploymentKey_idempotent k full H1).
Defined.
